(** * MAGDA DSL parser (parsers/go/parser.go): a shallow embedding

    The Go parser turns a chained-method program such as
    [track(instrument=...).newClip(bar=3)] into a list of action records.
    This file embeds [parser.go] function by function and proves the
    properties of the translation engine.

    Modelling conventions.
    - A Go [string] is a [String.string]; one [ascii] stands for one rune
      of the text (code points up to U+00FF, which covers the alphabet of
      the DSL).  All delimiters the scanners look at are ASCII.
    - Go's [int] is the 64 bit signed integer: a [Z] with the wrap-around
      written out ([int_add], [int_sub]).
    - [map[string]string] and [map[string]interface{}] are [gmap string _];
      a value of dynamic type [interface{}] is a [value].
    - [strconv.Atoi] is modelled in full.  [strconv.ParseFloat] and the
      type [float64] stay abstract (class [Float64]): the parser only
      stores what [ParseFloat] returns.
    - A Go function returning [(v, error)] returns a [result] (builders) or
      the pair itself ([ParseDSL]); a run-time panic is an outcome of its
      own.  Calls to [log.Printf] do not influence any result and are left
      out. *)

From Stdlib Require Import ZArith String Ascii List Lia QArith.
From stdpp Require Import base option gmap strings list.

#[local] Set Warnings "-register-all".
#[local] Open Scope string_scope.
#[local] Open Scope Z_scope.

(** ** Go's [int] *)

Module GoInt.

Definition min_int : Z := - 2 ^ 63.
Definition max_int : Z := 2 ^ 63 - 1.

Definition in_range (z : Z) : bool := (min_int <=? z) && (z <=? max_int).

(** Two's complement wrap-around of a mathematical integer. *)
Definition wrap (z : Z) : Z := (z + 2 ^ 63) mod 2 ^ 64 - 2 ^ 63.

Definition int_add (a b : Z) : Z := wrap (a + b).
Definition int_sub (a b : Z) : Z := wrap (a - b).

End GoInt.
Export GoInt.

(** ** The [strings] package, as far as the parser uses it *)

Module GoStrings.

Definition code (c : ascii) : Z := Z.of_N (N_of_ascii c).

(** The double quote character (U+0022). *)
Definition dquote : ascii := ascii_of_nat 34.
Definition backslash : ascii := ascii_of_nat 92.

(** [unicode.IsSpace] on the Latin-1 range. *)
Definition isSpace (c : ascii) : bool :=
  let n := code c in
  (n =? 9) || (n =? 10) || (n =? 11) || (n =? 12) || (n =? 13) ||
  (n =? 32) || (n =? 133) || (n =? 160).

Fixpoint TrimLeft (s : string) : string :=
  match s with
  | EmptyString => EmptyString
  | String c r => if isSpace c then TrimLeft r else s
  end.

Fixpoint TrimRight (s : string) : string :=
  match s with
  | EmptyString => EmptyString
  | String c r =>
      match TrimRight r with
      | EmptyString => if isSpace c then EmptyString else String c EmptyString
      | r' => String c r'
      end
  end.

Definition TrimSpace (s : string) : string := TrimRight (TrimLeft s).

Definition HasPrefix (s pre : string) : bool := String.prefix pre s.

(** [strings.Index(s, c)] for a one-character pattern; [-1] when absent. *)
Fixpoint Index (s : string) (c : ascii) : Z :=
  match s with
  | EmptyString => -1
  | String a r =>
      if Ascii.eqb a c then 0
      else let i := Index r c in if i <? 0 then -1 else i + 1
  end.

(** [strings.LastIndex(s, c)] for a one-character pattern. *)
Fixpoint LastIndex (s : string) (c : ascii) : Z :=
  match s with
  | EmptyString => -1
  | String a r =>
      let i := LastIndex r c in
      if 0 <=? i then i + 1 else if Ascii.eqb a c then 0 else -1
  end.

(** The slice expression [s[lo:hi]], for [0 <= lo <= hi <= len(s)]. *)
Definition slice (s : string) (lo hi : Z) : string :=
  substring (Z.to_nat lo) (Z.to_nat (hi - lo)) s.

(** [strings.Builder.WriteRune]. *)
Definition WriteRune (b : string) (c : ascii) : string :=
  b +:+ String c EmptyString.

Definition isEmpty (s : string) : bool :=
  match s with EmptyString => true | _ => false end.

End GoStrings.
Export GoStrings.

(** ** The [strconv] package *)

Module Strconv.

Definition digit (c : ascii) : option Z :=
  let n := code c in
  if (48 <=? n) && (n <=? 57) then Some (n - 48) else None.

Fixpoint digits (acc : Z) (s : string) : option Z :=
  match s with
  | EmptyString => Some acc
  | String c r =>
      match digit c with
      | Some d => digits (acc * 10 + d) r
      | None => None
      end
  end.

(** [strconv.Atoi]: an optional sign, then at least one decimal digit, and
    a value that fits [int]; [None] stands for a non-nil error. *)
Definition Atoi (s : string) : option Z :=
  match s with
  | EmptyString => None
  | String c r =>
      let neg := Ascii.eqb c "-" in
      let body := if neg || Ascii.eqb c "+" then r else s in
      if isEmpty body then None
      else
        match digits 0 body with
        | Some n =>
            let v := if neg then - n else n in
            if in_range v then Some v else None
        | None => None
        end
  end.

(** [float64] and [strconv.ParseFloat(s, 64)] are taken as given;
    [float64_4] is the constant [4.0]. *)
Class Float64 := {
  float64 : Type;
  ParseFloat : string -> option float64;
  float64_4 : float64
}.

End Strconv.
Export Strconv.

(** ** The two scanners: [splitMethodChains] and [extractParams] *)

Module Scanner.

(** Local variables of the loop in [splitMethodChains]. *)
Record splitState := SplitState {
  sp_parts : list string;
  sp_current : string;
  sp_depth : Z;
  sp_inString : bool;
  sp_escape : bool
}.

Definition splitInit : splitState := SplitState [] EmptyString 0 false false.

(** One iteration of [for i, char := range dslCode].  The inner loop that
    is meant to skip dots and blanks after a closing parenthesis only
    increments [i], which the [range] clause overwrites at the next
    iteration: it changes nothing, and the separators open the next part. *)
Definition splitStep (st : splitState) (char : ascii) : splitState :=
  let '(SplitState parts current depth inString escape) := st in
  if escape then
    SplitState parts (WriteRune current char) depth inString false
  else if Ascii.eqb char backslash then
    SplitState parts (WriteRune current char) depth inString true
  else if Ascii.eqb char dquote then
    SplitState parts (WriteRune current char) depth (negb inString) escape
  else if Ascii.eqb char "(" then
    let depth := if negb inString then int_add depth 1 else depth in
    SplitState parts (WriteRune current char) depth inString escape
  else if Ascii.eqb char ")" then
    if negb inString then
      let depth := int_sub depth 1 in
      if depth =? 0 then
        SplitState (parts ++ [WriteRune current char]) EmptyString depth
                   inString escape
      else SplitState parts (WriteRune current char) depth inString escape
    else SplitState parts (WriteRune current char) depth inString escape
  else SplitState parts (WriteRune current char) depth inString escape.

Fixpoint splitLoop (st : splitState) (s : string) : splitState :=
  match s with
  | EmptyString => st
  | String char rest => splitLoop (splitStep st char) rest
  end.

Definition splitMethodChains (dslCode : string) : list string :=
  let st := splitLoop splitInit dslCode in
  if negb (isEmpty (sp_current st)) then sp_parts st ++ [sp_current st]
  else sp_parts st.

(** Local variables of the loop in [extractParams]. *)
Record paramState := ParamState {
  ps_params : gmap string string;
  ps_currentKey : string;
  ps_currentValue : string;
  ps_inString : bool;
  ps_escape : bool;
  ps_expectingValue : bool;
  ps_currentParamKey : string
}.

Definition paramInit : paramState :=
  ParamState ∅ EmptyString EmptyString false false false EmptyString.

(** One iteration of [for _, char := range content]. *)
Definition paramStep (st : paramState) (char : ascii) : paramState :=
  let '(ParamState params currentKey currentValue inString escape
                   expectingValue currentParamKey) := st in
  if escape then
    ParamState params currentKey
      (if inString then WriteRune currentValue char else currentValue)
      inString false expectingValue currentParamKey
  else if Ascii.eqb char backslash then
    ParamState params currentKey
      (if inString then WriteRune currentValue char else currentValue)
      inString true expectingValue currentParamKey
  else if Ascii.eqb char dquote then
    let inString := negb inString in
    if negb inString && negb (isEmpty currentParamKey) then
      ParamState (<[currentParamKey := currentValue]> params) currentKey
        EmptyString inString escape false EmptyString
    else
      ParamState params currentKey currentValue inString escape
        expectingValue currentParamKey
  else if Ascii.eqb char "=" then
    if negb inString then
      ParamState params EmptyString currentValue inString escape true
        (TrimSpace currentKey)
    else
      ParamState params currentKey (WriteRune currentValue char) inString
        escape expectingValue currentParamKey
  else if Ascii.eqb char "," then
    if negb inString then
      if negb (isEmpty currentParamKey) && negb (isEmpty currentValue) then
        ParamState (<[currentParamKey := TrimSpace currentValue]> params)
          EmptyString EmptyString inString escape false EmptyString
      else st
    else
      ParamState params currentKey (WriteRune currentValue char) inString
        escape expectingValue currentParamKey
  else if expectingValue then
    ParamState params currentKey (WriteRune currentValue char) inString
      escape expectingValue currentParamKey
  else
    ParamState params (WriteRune currentKey char) currentValue inString
      escape expectingValue currentParamKey.

Fixpoint paramLoop (st : paramState) (s : string) : paramState :=
  match s with
  | EmptyString => st
  | String char rest => paramLoop (paramStep st char) rest
  end.

Definition extractParams (call : string) : gmap string string :=
  let start := Index call "(" in
  let end_ := LastIndex call ")" in
  if (start <? 0) || (end_ <? 0) || (end_ <=? start) then ∅
  else
    let content := TrimSpace (slice call (start + 1) end_) in
    if isEmpty content then ∅
    else
      let st := paramLoop paramInit content in
      if negb (isEmpty (ps_currentParamKey st)) then
        let valueStr := TrimSpace (ps_currentValue st) in
        if negb (isEmpty valueStr) then
          <[ps_currentParamKey st := valueStr]> (ps_params st)
        else ps_params st
      else ps_params st.

End Scanner.
Export Scanner.

(** ** Dynamic values, action records and the parser object *)

Section Data.

Context {F : Type}.

(** A value of static type [interface{}], by dynamic type: [nil], [bool],
    [int], [float64], [string], [[]interface{}], [map[string]interface{}],
    and [VOther] for a value of any other dynamic type. *)
Inductive value : Type :=
| VNil
| VBool (b : bool)
| VInt (n : Z)
| VFloat (f : F)
| VString (s : string)
| VSlice (l : list value)
| VMap (m : gmap string value)
| VOther (type_name : string).

(** [type Parser struct]; a [nil] state map is [None]. *)
Record Parser := mkParser {
  trackCounter : Z;
  state : option (gmap string value)
}.

(** A builder returns [(action, nil)] or [(nil, err)]. *)
Inductive result : Type :=
| Ok (a : gmap string value)
| Err (msg : string).

(** What [parseTrackCall] does: it returns normally with the record, the
    index and a [nil] error together with the updated parser, or panics in
    the type assertion [action[index].(int)]. *)
Inductive trackOutcome : Type :=
| TrackReturns (a : gmap string value) (index : Z) (err : option string)
    (p' : Parser)
| TrackPanics (reason : string).

(** How a call of [ParseDSL] ends: it returns the pair [(actions, err)],
    where a [nil] slice is the empty list, or it panics.  The parser object
    is the receiver after the call. *)
Inductive outcome : Type :=
| Returns (actions : list (gmap string value)) (err : option string)
    (p' : Parser)
| Panics (reason : string) (p' : Parser).

(** How one iteration of [for _, part := range parts] ends: the loop goes
    on with the new values of [actions], [currentTrackIndex] and the
    receiver, or the function is left. *)
Inductive flow : Type :=
| Next (actions : list (gmap string value)) (currentTrackIndex : Z)
    (p : Parser)
| Stop (o : outcome).

End Data.

Arguments value : clear implicits.
Arguments Parser : clear implicits.
Arguments result : clear implicits.
Arguments trackOutcome : clear implicits.
Arguments outcome : clear implicits.
Arguments flow : clear implicits.

(** An action record is a [map[string]interface{}]. *)
Abbreviation ActionRecord := (gmap string (value float64)).

(** The snapshot handed to [SetState]: a [map[string]interface{}], which
    may be [nil]. *)
Abbreviation Snapshot := (option (gmap string (value float64))).

Section Parser.

Context `{F64 : Float64}.

Definition NewParser : Parser float64 := mkParser 0 None.

Definition SetState (p : Parser float64) (st : Snapshot) : Parser float64 :=
  mkParser (trackCounter p) st.

(** The loop [for i, track := range tracks] of [getSelectedTrackIndex],
    from index [i] on. *)
Fixpoint firstSelected (i : Z) (tracks : list (value float64)) : Z :=
  match tracks with
  | [] => -1
  | track :: rest =>
      match track with
      | VMap trackMap =>
          match trackMap !! "selected" with
          | Some (VBool true) => i
          | _ => firstSelected (i + 1) rest
          end
      | _ => firstSelected (i + 1) rest
      end
  end.

Definition getSelectedTrackIndex (p : Parser float64) : Z :=
  match state p with
  | None => -1
  | Some st =>
      match st !! "state" with
      | Some (VMap stateMap) =>
          match stateMap !! "tracks" with
          | Some (VSlice tracks) => firstSelected 0 tracks
          | _ => -1
          end
      | _ => -1
      end
  end.

(** ** Action builders *)

Definition parseTrackCall (p : Parser float64) (call : string)
    : trackOutcome float64 :=
  let action : ActionRecord := {[ "action" := VString "create_track" ]} in
  let params := extractParams call in
  let action :=
    match params !! "instrument" with
    | Some instrument => <["instrument" := VString instrument]> action
    | None => action
    end in
  let action :=
    match params !! "name" with
    | Some name => <["name" := VString name]> action
    | None => action
    end in
  let '(action, p) :=
    match params !! "index" with
    | Some indexStr =>
        match Atoi indexStr with
        | Some index =>
            (<["index" := VInt index]> action,
             mkParser (int_add index 1) (state p))
        | None => (action, p)
        end
    | None =>
        (<["index" := VInt (trackCounter p)]> action,
         mkParser (int_add (trackCounter p) 1) (state p))
    end in
  match action !! "index" with
  | Some (VInt index) => TrackReturns action index None p
  | _ =>
      TrackPanics "interface conversion: interface {} is nil, not int"
  end.

(** The start/position form of [parseClipCall]; both branches of the
    source run the same statements on the text of the position. *)
Definition clipAtTime (params : gmap string string) (position : string)
    (action : ActionRecord) : ActionRecord :=
  let action :=
    match ParseFloat position with
    | Some posFloat => <["position" := VFloat posFloat]> action
    | None => action
    end in
  match params !! "length" with
  | Some length =>
      match ParseFloat length with
      | Some lengthFloat => <["length" := VFloat lengthFloat]> action
      | None => action
      end
  | None => <["length" := VFloat float64_4]> action
  end.

Definition parseClipCall (p : Parser float64) (call : string)
    (trackIndex : Z) : result float64 :=
  let trackIndex :=
    if trackIndex <? 0 then getSelectedTrackIndex p else trackIndex in
  if trackIndex <? 0 then
    Err "no track context for clip call and no selected track found"
  else
    let params := extractParams call in
    let action : ActionRecord :=
      <["track" := VInt trackIndex]> {[ "action" := VString "create_clip" ]} in
    match params !! "bar" with
    | Some bar =>
        let action := <["action" := VString "create_clip_at_bar"]> action in
        let action :=
          match Atoi bar with
          | Some barInt => <["bar" := VInt barInt]> action
          | None => action
          end in
        let action :=
          match params !! "length_bars" with
          | Some lengthBars =>
              match Atoi lengthBars with
              | Some lengthInt => <["length_bars" := VInt lengthInt]> action
              | None => action
              end
          | None => <["length_bars" := VInt 4]> action
          end in
        Ok action
    | None =>
        match params !! "start" with
        | Some start => Ok (clipAtTime params start action)
        | None =>
            match params !! "position" with
            | Some position => Ok (clipAtTime params position action)
            | None => Err "clip call must specify bar or start/position"
            end
        end
    end.

(** [parseMidiCall] ignores the text of the call. *)
Definition parseMidiCall (p : Parser float64) (call : string)
    (trackIndex : Z) : result float64 :=
  if trackIndex <? 0 then Err "no track context for midi call"
  else
    Ok (<["notes" := VSlice []]>
        (<["track" := VInt trackIndex]> {[ "action" := VString "add_midi" ]})).

Definition parseFXCall (p : Parser float64) (call : string)
    (trackIndex : Z) : result float64 :=
  if trackIndex <? 0 then Err "no track context for FX call"
  else
    let params := extractParams call in
    let action : ActionRecord :=
      <["track" := VInt trackIndex]> {[ "action" := VString "add_track_fx" ]} in
    match params !! "fxname" with
    | Some fxname => Ok (<["fxname" := VString fxname]> action)
    | None =>
        match params !! "instrument" with
        | Some instrument =>
            Ok (<["fxname" := VString instrument]>
                (<["action" := VString "add_instrument"]> action))
        | None => Err "FX call must specify fxname or instrument"
        end
    end.

Definition parseVolumeCall (p : Parser float64) (call : string)
    (trackIndex : Z) : result float64 :=
  if trackIndex <? 0 then Err "no track context for volume call"
  else
    let params := extractParams call in
    let action : ActionRecord :=
      <["track" := VInt trackIndex]>
        {[ "action" := VString "set_track_volume" ]} in
    match params !! "volume_db" with
    | Some volume =>
        match ParseFloat volume with
        | Some volFloat => Ok (<["volume_db" := VFloat volFloat]> action)
        | None => Ok action
        end
    | None => Err "volume call must specify volume_db"
    end.

Definition parsePanCall (p : Parser float64) (call : string)
    (trackIndex : Z) : result float64 :=
  if trackIndex <? 0 then Err "no track context for pan call"
  else
    let params := extractParams call in
    let action : ActionRecord :=
      <["track" := VInt trackIndex]>
        {[ "action" := VString "set_track_pan" ]} in
    match params !! "pan" with
    | Some pan =>
        match ParseFloat pan with
        | Some panFloat => Ok (<["pan" := VFloat panFloat]> action)
        | None => Ok action
        end
    | None => Err "pan call must specify pan"
    end.

(** [BooleanTrue] *)
Definition BooleanTrue : string := "true".

Definition parseMuteCall (p : Parser float64) (call : string)
    (trackIndex : Z) : result float64 :=
  if trackIndex <? 0 then Err "no track context for mute call"
  else
    let params := extractParams call in
    let action : ActionRecord :=
      <["track" := VInt trackIndex]>
        {[ "action" := VString "set_track_mute" ]} in
    match params !! "mute" with
    | Some mute => Ok (<["mute" := VBool (String.eqb mute BooleanTrue)]> action)
    | None => Err "mute call must specify mute"
    end.

Definition parseSoloCall (p : Parser float64) (call : string)
    (trackIndex : Z) : result float64 :=
  if trackIndex <? 0 then Err "no track context for solo call"
  else
    let params := extractParams call in
    let action : ActionRecord :=
      <["track" := VInt trackIndex]>
        {[ "action" := VString "set_track_solo" ]} in
    match params !! "solo" with
    | Some solo => Ok (<["solo" := VBool (String.eqb solo BooleanTrue)]> action)
    | None => Err "solo call must specify solo"
    end.

Definition parseNameCall (p : Parser float64) (call : string)
    (trackIndex : Z) : result float64 :=
  if trackIndex <? 0 then Err "no track context for name call"
  else
    let params := extractParams call in
    let action : ActionRecord :=
      <["track" := VInt trackIndex]>
        {[ "action" := VString "set_track_name" ]} in
    match params !! "name" with
    | Some name => Ok (<["name" := VString name]> action)
    | None => Err "name call must specify name"
    end.

(** ** [ParseDSL] *)

(** [x, err := build(...); if err != nil { return nil, fmt.Errorf(prefix+
    ": %w", err) }; actions = append(actions, x)] *)
Definition emit (r : result float64) (prefix : string)
    (actions : list ActionRecord) (currentTrackIndex : Z) (p : Parser float64)
    : flow float64 :=
  match r with
  | Ok a => Next (actions ++ [a]) currentTrackIndex p
  | Err msg => Stop (Returns [] (Some (prefix +:+ ": " +:+ msg)) p)
  end.

(** The end of the [track(] branch: a track creation call. *)
Definition createTrack (p : Parser float64) (actions : list ActionRecord)
    (part : string) : flow float64 :=
  match parseTrackCall p part with
  | TrackReturns trackAction trackIndex (Some msg) p' =>
      Stop (Returns [] (Some ("failed to parse track call: " +:+ msg)) p')
  | TrackReturns trackAction trackIndex None p' =>
      Next (actions ++ [trackAction]) trackIndex p'
  | TrackPanics reason => Stop (Panics reason p)
  end.

(** The [track(] branch: a reference to an existing track ([id=], a bare
    number, [selected=true]) or else a creation. *)
Definition parseTrackPart (p : Parser float64) (actions : list ActionRecord)
    (part : string) : flow float64 :=
  let params := extractParams part in
  match params !! "id" with
  | Some idStr =>
      match Atoi idStr with
      | Some trackNum => Next actions (int_sub trackNum 1) p
      | None => createTrack p actions part
      end
  | None =>
      match params !! "selected" with
      | Some selectedStr =>
          if String.eqb selectedStr "true" || String.eqb selectedStr "True"
          then
            let selectedIndex := getSelectedTrackIndex p in
            if 0 <=? selectedIndex then Next actions selectedIndex p
            else Stop (Returns [] (Some "no selected track found in state") p)
          else createTrack p actions part
      | None =>
          if Nat.eqb (size params) 0 then
            let start := Index part "(" in
            let end_ := LastIndex part ")" in
            if (0 <=? start) && (start <? end_) then
              let content := TrimSpace (slice part (start + 1) end_) in
              match Atoi content with
              | Some trackNum => Next actions (int_sub trackNum 1) p
              | None => createTrack p actions part
              end
            else createTrack p actions part
          else createTrack p actions part
      end
  end.

(** The body of the loop over the parts. *)
Definition parsePart (p : Parser float64) (actions : list ActionRecord)
    (currentTrackIndex : Z) (part : string) : flow float64 :=
  let part := TrimSpace part in
  if isEmpty part then Next actions currentTrackIndex p
  else if HasPrefix part "track(" then parseTrackPart p actions part
  else if HasPrefix part ".newClip(" then
    let trackIndex :=
      if currentTrackIndex <? 0 then getSelectedTrackIndex p
      else currentTrackIndex in
    emit (parseClipCall p part trackIndex) "failed to parse clip call"
      actions currentTrackIndex p
  else if HasPrefix part ".addMidi(" then
    emit (parseMidiCall p part currentTrackIndex) "failed to parse midi call"
      actions currentTrackIndex p
  else if HasPrefix part ".addFX(" || HasPrefix part ".addInstrument(" then
    emit (parseFXCall p part currentTrackIndex) "failed to parse FX call"
      actions currentTrackIndex p
  else if HasPrefix part ".setVolume(" then
    emit (parseVolumeCall p part currentTrackIndex)
      "failed to parse volume call" actions currentTrackIndex p
  else if HasPrefix part ".setPan(" then
    emit (parsePanCall p part currentTrackIndex) "failed to parse pan call"
      actions currentTrackIndex p
  else if HasPrefix part ".setMute(" then
    emit (parseMuteCall p part currentTrackIndex) "failed to parse mute call"
      actions currentTrackIndex p
  else if HasPrefix part ".setSolo(" then
    emit (parseSoloCall p part currentTrackIndex) "failed to parse solo call"
      actions currentTrackIndex p
  else if HasPrefix part ".setName(" then
    emit (parseNameCall p part currentTrackIndex) "failed to parse name call"
      actions currentTrackIndex p
  else Next actions currentTrackIndex p.

(** The loop over the parts and the statements after it. *)
Fixpoint parseParts (p : Parser float64) (actions : list ActionRecord)
    (currentTrackIndex : Z) (parts : list string) : outcome float64 :=
  match parts with
  | [] =>
      if Nat.eqb (length actions) 0
      then Returns [] (Some "no actions found in DSL code") p
      else Returns actions None p
  | part :: rest =>
      match parsePart p actions currentTrackIndex part with
      | Next actions currentTrackIndex p =>
          parseParts p actions currentTrackIndex rest
      | Stop o => o
      end
  end.

Definition ParseDSL (p : Parser float64) (dslCode : string)
    : outcome float64 :=
  let dslCode := TrimSpace dslCode in
  if isEmpty dslCode then Returns [] (Some "empty DSL code") p
  else parseParts p [] (-1) (splitMethodChains dslCode).

End Parser.

(** ** Track references by number or name *)

Section Resolver.

Context `{F64 : Float64}.

(** [trackExists]: is there a track at this 0-based index? *)
Definition trackExists (p : Parser float64) (index : Z) : bool :=
  match state p with
  | None => false
  | Some st =>
      if index <? 0 then false
      else
        match st !! "state" with
        | Some (VMap stateMap) =>
            match stateMap !! "tracks" with
            | Some (VSlice tracks) => index <? Z.of_nat (length tracks)
            | _ => false
            end
        | _ => false
        end
  end.

(** The loop [for i, track := range tracks] of [resolveTrackIndex], from
    index [i] on. *)
Fixpoint firstNamed (trackRef : string) (i : Z)
    (tracks : list (value float64)) : Z :=
  match tracks with
  | [] => -1
  | track :: rest =>
      match track with
      | VMap trackMap =>
          match trackMap !! "name" with
          | Some (VString name) =>
              if String.eqb name trackRef then i
              else firstNamed trackRef (i + 1) rest
          | _ => firstNamed trackRef (i + 1) rest
          end
      | _ => firstNamed trackRef (i + 1) rest
      end
  end.

(** [resolveTrackIndex]: a 1-based number of an existing track, or else
    the name of a track; [-1] when nothing matches.  When the snapshot has
    no map under [state], the name is looked up in the snapshot itself. *)
Definition resolveTrackIndex (p : Parser float64) (trackRef : string) : Z :=
  match state p with
  | None => -1
  | Some st =>
      let byNumber :=
        match Atoi trackRef with
        | Some trackNum =>
            let trackIndex := int_sub trackNum 1 in
            if trackExists p trackIndex then Some trackIndex else None
        | None => None
        end in
      match byNumber with
      | Some trackIndex => trackIndex
      | None =>
          let stateMap :=
            match st !! "state" with
            | Some (VMap stateMap) => stateMap
            | _ => st
            end in
          match stateMap !! "tracks" with
          | Some (VSlice tracks) => firstNamed trackRef 0 tracks
          | _ => -1
          end
      end
  end.

End Resolver.

(** ** A reference reading of [ParseFloat]

    Plain decimal literals ([-3.5], [2.0], [16]) read as exact rationals in
    lowest terms.  It serves to run the parser on concrete programs; the
    theorems below hold for every [Float64]. *)

Module DecimalFloat.

Fixpoint fraction (num den : Z) (s : string) : option (Z * Z) :=
  match s with
  | EmptyString => Some (num, den)
  | String c r =>
      match digit c with
      | Some d => fraction (num * 10 + d) (den * 10) r
      | None => None
      end
  end.

Fixpoint mantissa (acc : Z) (seen : bool) (s : string) : option (Z * Z) :=
  match s with
  | EmptyString => if seen then Some (acc, 1) else None
  | String c r =>
      if Ascii.eqb c "." then
        if seen && negb (isEmpty r) then fraction acc 1 r else None
      else
        match digit c with
        | Some d => mantissa (acc * 10 + d) true r
        | None => None
        end
  end.

Definition read (s : string) : option Q :=
  match s with
  | EmptyString => None
  | String c r =>
      let neg := Ascii.eqb c "-" in
      let body := if neg || Ascii.eqb c "+" then r else s in
      match mantissa 0 false body with
      | Some (n, d) =>
          Some (Qred (Qmake (if neg then - n else n) (Z.to_pos d)))
      | None => None
      end
  end.

Definition decimal : Float64 :=
  {| float64 := Q; ParseFloat := read; float64_4 := Qmake 4 1 |}.

End DecimalFloat.

(** ** Vocabulary of the statements *)

Section Vocabulary.

Context `{F64 : Float64}.

(** The prefixes [ParseDSL] dispatches on, in the order of its tests. *)
Definition keywords : list string :=
  [ "track("; ".newClip("; ".addMidi("; ".addFX("; ".addInstrument(";
    ".setVolume("; ".setPan("; ".setMute("; ".setSolo("; ".setName(" ].

Definition recognised (part : string) : bool :=
  existsb (HasPrefix part) keywords.

(** The builders that test the track index they are given and nothing
    else, each with the error [ParseDSL] returns when that index is
    negative. *)
Definition contextErrors : list (string * string) :=
  [ (".addMidi(", "failed to parse midi call: no track context for midi call");
    (".addFX(", "failed to parse FX call: no track context for FX call");
    (".addInstrument(",
     "failed to parse FX call: no track context for FX call");
    (".setVolume(",
     "failed to parse volume call: no track context for volume call");
    (".setPan(", "failed to parse pan call: no track context for pan call");
    (".setMute(", "failed to parse mute call: no track context for mute call");
    (".setSolo(", "failed to parse solo call: no track context for solo call");
    (".setName(", "failed to parse name call: no track context for name call")
  ].

Definition clipContextError : string :=
  "failed to parse clip call: " +:+
  "no track context for clip call and no selected track found".

(** An entry of the snapshot's track list that is flagged selected: a map
    whose [selected] field is the boolean [true]. *)
Definition flagged (track : value float64) : bool :=
  match track with
  | VMap trackMap =>
      match trackMap !! "selected" with
      | Some (VBool true) => true
      | _ => false
      end
  | _ => false
  end.

(** The track list of the snapshot held by the parser: the slice under
    [state.tracks], empty when the snapshot has no such slice. *)
Definition snapshotTracks (p : Parser float64) : list (value float64) :=
  match state p with
  | Some st =>
      match st !! "state" with
      | Some (VMap stateMap) =>
          match stateMap !! "tracks" with
          | Some (VSlice tracks) => tracks
          | _ => []
          end
      | _ => []
      end
  | None => []
  end.

(** [n] is the position of the first flagged entry of [tracks]. *)
Definition firstFlagged (tracks : list (value float64)) (n : nat) : Prop :=
  (exists track, tracks !! n = Some track /\ flagged track = true) /\
  (forall j track, (j < n)%nat -> tracks !! j = Some track ->
                   flagged track = false).

Definition noneFlagged (tracks : list (value float64)) : Prop :=
  forall track, In track tracks -> flagged track = false.

(** A segment that [ParseDSL] reads as [track(selected=true)]: a track
    call without [id] parameter whose [selected] parameter is [true] or
    [True]. *)
Definition isSelectedReference (part : string) : bool :=
  let part := TrimSpace part in
  let params := extractParams part in
  HasPrefix part "track(" &&
  match params !! "id", params !! "selected" with
  | None, Some selectedStr =>
      String.eqb selectedStr "true" || String.eqb selectedStr "True"
  | _, _ => false
  end.


(** An outcome that is not a success: an error with no records, or a
    panic. *)
Definition failed (o : outcome float64) : Prop :=
  match o with
  | Returns actions err _ => actions = [] /\ err <> None
  | Panics _ _ => True
  end.

(** A snapshot with two tracks, the second of which is selected. *)
Definition secondSelected : Snapshot :=
  Some {[ "state" :=
    VMap {[ "tracks" :=
      VSlice [ VMap {[ "name" := VString "Drums"; "selected" := VBool false ]};
               VMap {[ "name" := VString "Bass"; "selected" := VBool true ]} ]
    ]} ]}.

End Vocabulary.

(** ** Vocabulary of the scanner and builder properties *)

Section Shapes.

Context `{F64 : Float64}.

(** The parts of a split, put back one after the other. *)
Definition joinParts (parts : list string) : string :=
  fold_right String.append EmptyString parts.

Definition endsWithParen (part : string) : Prop :=
  exists body, part = body +:+ ")".

(** Every character of [s] passes the test [ok]. *)
Fixpoint allChars (ok : ascii -> bool) (s : string) : bool :=
  match s with
  | EmptyString => true
  | String c r => ok c && allChars ok r
  end.

(** The characters [splitMethodChains] reacts to. *)
Definition splitSpecial (c : ascii) : bool :=
  Ascii.eqb c backslash || Ascii.eqb c dquote ||
  Ascii.eqb c "(" || Ascii.eqb c ")".

(** The characters [extractParams] reacts to. *)
Definition paramSpecial (c : ascii) : bool :=
  Ascii.eqb c backslash || Ascii.eqb c dquote ||
  Ascii.eqb c "=" || Ascii.eqb c ",".

Definition isQuoteOrBackslash (c : ascii) : bool :=
  Ascii.eqb c backslash || Ascii.eqb c dquote.

Definition isParen (c : ascii) : bool :=
  Ascii.eqb c "(" || Ascii.eqb c ")".

(** Text in double quotes. *)
Definition quoted (text : string) : string :=
  String dquote text +:+ String dquote EmptyString.

(** A piece of an argument list, as the segmenter sees it: text without
    quotes, backslashes and parentheses, or a quoted string without quotes
    and backslashes inside. *)
Inductive piece : Type :=
| Bare (text : string)
| InQuotes (text : string).

Definition pieceOk (x : piece) : bool :=
  match x with
  | Bare text => allChars (fun c => negb (splitSpecial c)) text
  | InQuotes text => allChars (fun c => negb (isQuoteOrBackslash c)) text
  end.

Definition renderPiece (x : piece) : string :=
  match x with
  | Bare text => text
  | InQuotes text => quoted text
  end.

Definition renderPieces (xs : list piece) : string :=
  joinParts (map renderPiece xs).

(** A call: a name, and the pieces between its parentheses. *)
Definition renderCall (name : string) (args : list piece) : string :=
  name +:+ "(" +:+ renderPieces args +:+ ")".

(** A parameter value as written in a call: a bare literal, or a quoted
    string. *)
Inductive literal : Type :=
| Plain (text : string)
| Quoted (text : string).

(** A key or a bare literal that the extractor reads back unchanged: not
    empty, without the characters the extractor reacts to, and without
    blanks at either end. *)
Definition plainWord (w : string) : bool :=
  negb (isEmpty w) && allChars (fun c => negb (paramSpecial c)) w &&
  String.eqb (TrimSpace w) w.

Definition literalOk (v : literal) : bool :=
  match v with
  | Plain text => plainWord text
  | Quoted text => allChars (fun c => negb (isQuoteOrBackslash c)) text
  end.

Definition paramOk (kv : string * literal) : bool :=
  plainWord (fst kv) && literalOk (snd kv).

Definition renderLiteral (v : literal) : string :=
  match v with
  | Plain text => text
  | Quoted text => quoted text
  end.

Definition literalText (v : literal) : string :=
  match v with
  | Plain text => text
  | Quoted text => text
  end.

(** [key=value, key=value, ...] *)
Fixpoint renderParams (kvs : list (string * literal)) : string :=
  match kvs with
  | [] => EmptyString
  | [(key, v)] => key +:+ "=" +:+ renderLiteral v
  | (key, v) :: rest =>
      key +:+ "=" +:+ renderLiteral v +:+ ", " +:+ renderParams rest
  end.

(** The map a parameter list stands for; a later occurrence of a key
    replaces an earlier one. *)
Definition paramsOf (kvs : list (string * literal)) : gmap string string :=
  fold_left (fun m kv => <[fst kv := literalText (snd kv)]> m) kvs ∅.

(** The [action] values the builders write. *)
Definition actionNames : list string :=
  [ "create_track"; "create_clip"; "create_clip_at_bar"; "add_midi";
    "add_track_fx"; "add_instrument"; "set_track_volume"; "set_track_pan";
    "set_track_mute"; "set_track_solo"; "set_track_name" ].

(** A record as [ParseDSL] returns them: its [action] is one of the known
    names, and it is either a [create_track] record with an integer
    [index], or a record on a track with a non-negative integer [track]. *)
Definition wellFormedRecord (a : ActionRecord) : Prop :=
  (exists name, a !! "action" = Some (VString name) /\ In name actionNames) /\
  ((a !! "action" = Some (VString "create_track") /\
    exists index, a !! "index" = Some (VInt index)) \/
   (a !! "action" <> Some (VString "create_track") /\
    exists track, a !! "track" = Some (VInt track) /\ 0 <= track)).

(** The track list [resolveTrackIndex] looks names up in. *)
Definition namedTracks (p : Parser float64) : list (value float64) :=
  match state p with
  | Some st =>
      let stateMap :=
        match st !! "state" with
        | Some (VMap stateMap) => stateMap
        | _ => st
        end in
      match stateMap !! "tracks" with
      | Some (VSlice tracks) => tracks
      | _ => []
      end
  | None => []
  end.

(** A track entry with this name: a map whose [name] field is the string
    [trackRef]. *)
Definition named (trackRef : string) (track : value float64) : bool :=
  match track with
  | VMap trackMap =>
      match trackMap !! "name" with
      | Some (VString name) => String.eqb name trackRef
      | _ => false
      end
  | _ => false
  end.

End Shapes.

(** ** Vocabulary of the loop of [extractParams] and of the outcomes *)

Section MoreShapes.

(** The statements of [extractParams] after its loop. *)
Definition paramsAfter (st : paramState) : gmap string string :=
  if negb (isEmpty (ps_currentParamKey st)) then
    let valueStr := TrimSpace (ps_currentValue st) in
    if negb (isEmpty valueStr) then
      <[ps_currentParamKey st := valueStr]> (ps_params st)
    else ps_params st
  else ps_params st.

(** What [extractParams] makes of the text between the parentheses. *)
Definition paramsOfContent (content : string) : gmap string string :=
  let content := TrimSpace content in
  if isEmpty content then ∅
  else paramsAfter (paramLoop paramInit content).

(** The loop of [extractParams] at the start of a parameter: nothing is
    pending but blanks in front of the key. *)
Definition atParam (params : gmap string string) (pad : string) : paramState :=
  ParamState params pad EmptyString false false false EmptyString.

(** The loop of [extractParams] after a bare value. *)
Definition afterValue (params : gmap string string) (key value : string)
    : paramState :=
  ParamState params EmptyString value false false true key.

Context `{F64 : Float64}.

(** The receiver after a call of [ParseDSL]. *)
Definition parserAfter (o : outcome float64) : Parser float64 :=
  match o with
  | Returns _ _ p' => p'
  | Panics _ p' => p'
  end.

(** [n] is the position of the first entry of [tracks] that passes
    [test]. *)
Definition firstWith (test : value float64 -> bool)
    (tracks : list (value float64)) (n : nat) : Prop :=
  (exists track, tracks !! n = Some track /\ test track = true) /\
  (forall j track, (j < n)%nat -> tracks !! j = Some track ->
                   test track = false).

End MoreShapes.

(** * Properties *)

Section Facts.

Context `{F64 : Float64}.

(** ** Strings and integers *)

Lemma HasPrefix_inv (pre s : string) :
  HasPrefix s pre = true -> exists r, s = pre +:+ r.
Proof.
  unfold HasPrefix. revert s.
  induction pre as [|a pre IH]; intros s H.
  - exists s. reflexivity.
  - destruct s as [|b s]; simpl in H; [discriminate|].
    destruct (ascii_dec a b) as [->|]; [|discriminate].
    destruct (IH _ H) as [r ->]. exists r. reflexivity.
Qed.

Lemma wrap_in_range (z : Z) : min_int <= z <= max_int -> wrap z = z.
Proof.
  unfold wrap, min_int, max_int. intros H.
  rewrite Z.mod_small by lia. lia.
Qed.

Lemma in_range_spec (z : Z) :
  in_range z = true <-> min_int <= z <= max_int.
Proof. unfold in_range. rewrite andb_true_iff, !Z.leb_le. tauto. Qed.

Lemma Atoi_in_range (s : string) (k : Z) :
  Atoi s = Some k -> min_int <= k <= max_int.
Proof.
  unfold Atoi. destruct s as [|c r]; [discriminate|].
  destruct (isEmpty _); [discriminate|].
  destruct (digits 0 _) as [n|]; [|discriminate].
  destruct (in_range _) eqn:E; [|discriminate].
  intros [= <-]. now apply in_range_spec.
Qed.

(** ** The loop of [ParseDSL] *)

Lemma parseTrackCall_nil_error p call a i err p' :
  parseTrackCall p call = TrackReturns a i err p' -> err = None.
Proof.
  unfold parseTrackCall. intros H.
  repeat case_match; congruence.
Qed.

Lemma emit_stop r prefix actions cur p o :
  emit r prefix actions cur p = Stop o -> failed o.
Proof.
  destruct r; simpl; [discriminate|].
  intros [= <-]. simpl. split; [reflexivity | discriminate].
Qed.

Lemma createTrack_stop p actions part o :
  createTrack p actions part = Stop o -> failed o.
Proof.
  unfold createTrack.
  destruct (parseTrackCall p part) as [a i [msg|] p'|r] eqn:E.
  - apply parseTrackCall_nil_error in E. discriminate.
  - discriminate.
  - intros [= <-]. exact I.
Qed.

Lemma parseTrackPart_stop p actions part o :
  parseTrackPart p actions part = Stop o -> failed o.
Proof.
  unfold parseTrackPart.
  repeat match goal with
         | |- context [match ?x with _ => _ end] => destruct x eqn:?
         end;
    try discriminate; try apply createTrack_stop.
  intros [= <-]. simpl. split; [reflexivity | discriminate].
Qed.

Lemma parsePart_stop p actions cur part o :
  parsePart p actions cur part = Stop o -> failed o.
Proof.
  unfold parsePart.
  repeat match goal with
         | |- context [if ?b then _ else _] =>
             lazymatch b with
             | _ <? _ => fail
             | _ => destruct b
             end
         end;
    try discriminate;
    try apply parseTrackPart_stop; try apply emit_stop.
Qed.

Lemma parseParts_failed_or_records parts : forall p actions cur,
  match parseParts p actions cur parts with
  | Returns actions' None _ => actions' <> []
  | o => failed o
  end.
Proof.
  induction parts as [|part rest IH]; intros p actions cur; simpl.
  - destruct actions; simpl; [split; [reflexivity | discriminate]|].
    discriminate.
  - destruct (parsePart p actions cur part) as [a c p'|o] eqn:E.
    + apply IH.
    + apply parsePart_stop in E. destruct o as [a [e|] p'|]; simpl in *;
        [exact E | destruct E as [_ E]; congruence | exact I].
Qed.

Lemma ParseDSL_failed_or_records p dslCode :
  match ParseDSL p dslCode with
  | Returns actions None _ => actions <> []
  | o => failed o
  end.
Proof.
  unfold ParseDSL. destruct (isEmpty (TrimSpace dslCode)).
  - simpl. split; [reflexivity | discriminate].
  - apply parseParts_failed_or_records.
Qed.

(** C8: whenever [ParseDSL] returns a non-nil error, the slice of action
    records it returns with it is nil; no prefix of the records built
    before the failing segment comes back. *)
Theorem error_returns_no_records p dslCode actions msg p' :
  ParseDSL p dslCode = Returns actions (Some msg) p' -> actions = [].
Proof.
  intros H. pose proof (ParseDSL_failed_or_records p dslCode) as G.
  rewrite H in G. exact (proj1 G).
Qed.

(** ** Segments with an unknown keyword *)

Lemma parsePart_unrecognised p actions cur part :
  recognised (TrimSpace part) = false ->
  parsePart p actions cur part = Next actions cur p.
Proof.
  unfold recognised, keywords. simpl. intros H.
  repeat (apply orb_false_elim in H; destruct H as [? H]).
  unfold parsePart.
  destruct (isEmpty (TrimSpace part)); [reflexivity|].
  repeat match goal with
         | E : HasPrefix _ _ = false |- _ => rewrite E; clear E
         end.
  reflexivity.
Qed.

Lemma parseParts_skip part :
  (forall p actions cur, parsePart p actions cur part = Next actions cur p) ->
  forall pre rest p actions cur,
    parseParts p actions cur (pre ++ part :: rest) =
    parseParts p actions cur (pre ++ rest).
Proof.
  intros Hskip pre rest. induction pre as [|x pre IH]; intros p actions cur.
  - simpl. now rewrite Hskip.
  - simpl. destruct (parsePart p actions cur x); [apply IH | reflexivity].
Qed.

(** C10: a segment whose text starts with none of the ten recognised
    keywords leaves the record list, the current track and the parser as
    they are and raises no error; the parse goes on with the next segment,
    so that the result is the one of the program without that segment. *)
Theorem unrecognised_segment_skipped (part : string) :
  recognised (TrimSpace part) = false ->
  (forall p actions cur, parsePart p actions cur part = Next actions cur p) /\
  (forall pre rest p actions cur,
     parseParts p actions cur (pre ++ part :: rest) =
     parseParts p actions cur (pre ++ rest)).
Proof.
  intros H.
  assert (Hskip : forall p actions cur,
             parsePart p actions cur part = Next actions cur p)
    by (intros; now apply parsePart_unrecognised).
  split; [exact Hskip | now apply parseParts_skip].
Qed.

(** ** Independent parsers *)


(** ** The selected track of the snapshot *)

Lemma firstSelected_cons i track rest :
  firstSelected i (track :: rest) =
  if flagged track then i else firstSelected (i + 1) rest.
Proof.
  destruct track as [| | | | | |m|]; simpl; try reflexivity.
  destruct (m !! "selected") as [[|[]| | | | | |]|]; reflexivity.
Qed.

Lemma firstSelected_none tracks : forall i,
  noneFlagged tracks -> firstSelected i tracks = -1.
Proof.
  induction tracks as [|track rest IH]; intros i H; [reflexivity|].
  rewrite firstSelected_cons, (H track) by (left; reflexivity).
  apply IH. intros t Ht. apply H. right. exact Ht.
Qed.

Lemma firstSelected_first tracks : forall i n,
  firstFlagged tracks n -> firstSelected i tracks = i + Z.of_nat n.
Proof.
  induction tracks as [|track rest IH]; intros i n [[t [Hn Ht]] Hlt].
  - destruct n; discriminate.
  - rewrite firstSelected_cons. destruct n as [|n].
    + simpl in Hn. injection Hn as ->. rewrite Ht. lia.
    + rewrite (Hlt 0%nat track); [|lia|reflexivity].
      rewrite (IH (i + 1) n); [lia|]. split.
      * exists t. split; [exact Hn | exact Ht].
      * intros j t' Hj Hj'. apply (Hlt (S j) t'); [lia | exact Hj'].
Qed.

Lemma flagged_cases tracks :
  noneFlagged tracks \/ exists n, firstFlagged tracks n.
Proof.
  induction tracks as [|track rest IH].
  - left. intros t [].
  - destruct (flagged track) eqn:E.
    + right. exists 0%nat. split.
      * exists track. split; [reflexivity | exact E].
      * intros j t Hj. lia.
    + destruct IH as [IH|[n [[t [Hn Ht]] Hlt]]].
      * left. intros t [<-|Ht]; [exact E | now apply IH].
      * right. exists (S n). split.
        -- exists t. split; [exact Hn | exact Ht].
        -- intros [|j] t' Hj Hj'.
           ++ simpl in Hj'. injection Hj' as <-. exact E.
           ++ apply (Hlt j t'); [lia | exact Hj'].
Qed.

Lemma getSelectedTrackIndex_tracks p :
  getSelectedTrackIndex p = firstSelected 0 (snapshotTracks p).
Proof.
  unfold getSelectedTrackIndex, snapshotTracks.
  repeat case_match; reflexivity.
Qed.

Lemma getSelectedTrackIndex_none p :
  noneFlagged (snapshotTracks p) -> getSelectedTrackIndex p = -1.
Proof.
  intros H. rewrite getSelectedTrackIndex_tracks.
  now apply firstSelected_none.
Qed.

Lemma getSelectedTrackIndex_first p n :
  firstFlagged (snapshotTracks p) n -> getSelectedTrackIndex p = Z.of_nat n.
Proof.
  intros H. rewrite getSelectedTrackIndex_tracks.
  now rewrite (firstSelected_first _ 0 n H).
Qed.

(** [getSelectedTrackIndex] returns [-1] or the position of the first
    entry flagged selected. *)
Lemma getSelectedTrackIndex_cases p :
  (noneFlagged (snapshotTracks p) /\ getSelectedTrackIndex p = -1) \/
  (exists n, firstFlagged (snapshotTracks p) n /\
             getSelectedTrackIndex p = Z.of_nat n).
Proof.
  destruct (flagged_cases (snapshotTracks p)) as [H|[n H]].
  - left. split; [exact H | now apply getSelectedTrackIndex_none].
  - right. exists n. split; [exact H | now apply getSelectedTrackIndex_first].
Qed.

Lemma getSelectedTrackIndex_state p p' :
  state p' = state p -> getSelectedTrackIndex p' = getSelectedTrackIndex p.
Proof. unfold getSelectedTrackIndex. now intros ->. Qed.

Lemma snapshotTracks_state p p' :
  state p' = state p -> snapshotTracks p' = snapshotTracks p.
Proof. unfold snapshotTracks. now intros ->. Qed.

(** The parser never replaces its snapshot. *)
Lemma parseTrackCall_state p call a i err p' :
  parseTrackCall p call = TrackReturns a i err p' -> state p' = state p.
Proof.
  unfold parseTrackCall. intros H.
  repeat case_match; simplify_eq; reflexivity.
Qed.

Lemma parsePart_state p actions cur part actions' cur' p' :
  parsePart p actions cur part = Next actions' cur' p' -> state p' = state p.
Proof.
  unfold parsePart, parseTrackPart, createTrack, emit. intros H.
  repeat case_match; simplify_eq; try reflexivity;
    eapply parseTrackCall_state; eassumption.
Qed.

Lemma parsePart_selected p actions cur part :
  isSelectedReference part = true ->
  parsePart p actions cur part =
  if 0 <=? getSelectedTrackIndex p
  then Next actions (getSelectedTrackIndex p) p
  else Stop (Returns [] (Some "no selected track found in state") p).
Proof.
  unfold isSelectedReference, parsePart.
  set (part' := TrimSpace part).
  intros H. apply andb_prop in H as [Hpre H].
  destruct (HasPrefix_inv _ _ Hpre) as [r Hr].
  replace (isEmpty part') with false by (rewrite Hr; reflexivity).
  rewrite Hpre. unfold parseTrackPart.
  destruct (extractParams part' !! "id"); [discriminate|].
  destruct (extractParams part' !! "selected"); [|discriminate].
  rewrite H. reflexivity.
Qed.

Lemma parseParts_selected_fails parts : forall p actions cur part,
  In part parts -> isSelectedReference part = true ->
  noneFlagged (snapshotTracks p) ->
  failed (parseParts p actions cur parts).
Proof.
  induction parts as [|x rest IH]; intros p actions cur part Hin Hsel Hnone;
    [destruct Hin|].
  simpl. destruct (parsePart p actions cur x) as [a c p'|o] eqn:E.
  - destruct Hin as [->|Hin].
    + rewrite (parsePart_selected _ _ _ _ Hsel) in E.
      rewrite (getSelectedTrackIndex_none _ Hnone) in E. discriminate.
    + apply (IH p' a c part Hin Hsel).
      rewrite (snapshotTracks_state p p'); [exact Hnone|].
      eapply parsePart_state; eassumption.
  - eapply parsePart_stop; eassumption.
Qed.

(** C7: at a [track(selected=true)] segment, when some entry of the
    snapshot's track list is flagged selected, the current track becomes the
    position of the first such entry and no record is added; when no entry
    is flagged, the segment makes [ParseDSL] return the error [no selected
    track found in state], and no program that contains the segment parses
    successfully. *)
Theorem selected_track_reference (p : Parser float64) (part : string) :
  isSelectedReference part = true ->
  (forall n, firstFlagged (snapshotTracks p) n ->
     forall actions cur,
       parsePart p actions cur part = Next actions (Z.of_nat n) p) /\
  (noneFlagged (snapshotTracks p) ->
     (forall actions cur,
        parsePart p actions cur part =
        Stop (Returns [] (Some "no selected track found in state") p)) /\
     (forall dslCode,
        In part (splitMethodChains (TrimSpace dslCode)) ->
        failed (ParseDSL p dslCode))).
Proof.
  intros Hsel. split.
  - intros n Hn actions cur.
    rewrite (parsePart_selected _ _ _ _ Hsel).
    rewrite (getSelectedTrackIndex_first _ _ Hn).
    destruct (Z.leb_spec 0 (Z.of_nat n)); [reflexivity | lia].
  - intros Hnone. split.
    + intros actions cur.
      rewrite (parsePart_selected _ _ _ _ Hsel).
      now rewrite (getSelectedTrackIndex_none _ Hnone).
    + intros dslCode Hin. unfold ParseDSL.
      destruct (isEmpty (TrimSpace dslCode)).
      * simpl. split; [reflexivity | discriminate].
      * eapply parseParts_selected_fails; eassumption.
Qed.

(** ** Calls that reach a builder without a current track *)

Lemma parsePart_context_error p actions cur part kw msg :
  In (kw, msg) contextErrors ->
  HasPrefix (TrimSpace part) kw = true ->
  cur < 0 ->
  parsePart p actions cur part = Stop (Returns [] (Some msg) p).
Proof.
  intros Hin Hpre Hcur. unfold parsePart.
  set (part' := TrimSpace part) in *.
  assert (Hlt : (cur <? 0) = true) by (apply Z.ltb_lt; exact Hcur).
  destruct (HasPrefix_inv _ _ Hpre) as [r Hr]. clearbody part'. subst part'.
  unfold contextErrors in Hin. simpl in Hin.
  repeat (destruct Hin as [[= <- <-]|Hin]);
    [ unfold parseMidiCall | unfold parseFXCall | unfold parseFXCall
    | unfold parseVolumeCall | unfold parsePanCall | unfold parseMuteCall
    | unfold parseSoloCall | unfold parseNameCall | destruct Hin ];
    rewrite Hpre, Hlt; reflexivity.
Qed.

Lemma parsePart_newClip p actions cur part :
  HasPrefix (TrimSpace part) ".newClip(" = true ->
  parsePart p actions cur part =
  emit (parseClipCall p (TrimSpace part)
          (if cur <? 0 then getSelectedTrackIndex p else cur))
       "failed to parse clip call" actions cur p.
Proof.
  intros Hpre. unfold parsePart.
  set (part' := TrimSpace part) in *.
  destruct (HasPrefix_inv _ _ Hpre) as [r Hr]. clearbody part'. subst part'.
  rewrite Hpre. reflexivity.
Qed.

Lemma parseClipCall_no_track p call t :
  t < 0 -> getSelectedTrackIndex p < 0 ->
  parseClipCall p call t =
  Err "no track context for clip call and no selected track found".
Proof.
  intros Ht Hs. unfold parseClipCall.
  assert (E : (t <? 0) = true) by (apply Z.ltb_lt; exact Ht).
  rewrite E. cbv beta iota zeta.
  destruct (Z.ltb_spec (getSelectedTrackIndex p) 0); [reflexivity | lia].
Qed.

Lemma parseClipCall_with_track p call t :
  0 <= t ->
  parseClipCall p call t <>
  Err "no track context for clip call and no selected track found".
Proof.
  intros Ht. unfold parseClipCall.
  assert (E : (t <? 0) = false) by (apply Z.ltb_ge; exact Ht).
  rewrite E. cbv beta iota zeta. rewrite E.
  repeat case_match; discriminate.
Qed.

(** C1, as the code has it: of the chained calls only [newClip] falls back
    to the snapshot.  Reached without a current track, a [newClip] call is
    built on the first selected track of the snapshot and fails with a
    context error when no track is selected; an [addMidi], [addFX],
    [addInstrument], [setVolume], [setPan], [setMute], [setSolo] or
    [setName] call fails with a context error whatever the snapshot holds. *)
Theorem fallback_to_selected_track (p : Parser float64)
    (actions : list ActionRecord) (cur : Z) (part : string) :
  cur < 0 ->
  (HasPrefix (TrimSpace part) ".newClip(" = true ->
     (noneFlagged (snapshotTracks p) ->
        parsePart p actions cur part =
        Stop (Returns [] (Some clipContextError) p)) /\
     (forall n, firstFlagged (snapshotTracks p) n ->
        parsePart p actions cur part =
        emit (parseClipCall p (TrimSpace part) (Z.of_nat n))
             "failed to parse clip call" actions cur p /\
        parseClipCall p (TrimSpace part) (Z.of_nat n) <>
        Err "no track context for clip call and no selected track found")) /\
  (forall kw msg,
     In (kw, msg) contextErrors ->
     HasPrefix (TrimSpace part) kw = true ->
     parsePart p actions cur part = Stop (Returns [] (Some msg) p)).
Proof.
  intros Hcur. split.
  - intros Hpre. rewrite (parsePart_newClip _ _ _ _ Hpre).
    assert (Hlt : (cur <? 0) = true) by (apply Z.ltb_lt; exact Hcur).
    rewrite Hlt. split.
    + intros Hnone. pose proof (getSelectedTrackIndex_none _ Hnone) as E.
      rewrite parseClipCall_no_track by lia. reflexivity.
    + intros n Hn. rewrite (getSelectedTrackIndex_first _ _ Hn).
      split; [reflexivity | apply parseClipCall_with_track; lia].
  - intros kw msg Hin Hpre. now apply parsePart_context_error with kw.
Qed.

Lemma splitMethodChains_nonempty s part rest :
  splitMethodChains s = part :: rest -> isEmpty s = false.
Proof. destruct s; [discriminate | reflexivity]. Qed.

(** C4, as the code has it: a program whose first segment is an [addMidi],
    [addFX], [addInstrument], [setVolume], [setPan], [setMute], [setSolo]
    or [setName] call fails with a no-track-context error whatever the
    snapshot holds; a program whose first segment is a [newClip] call fails
    with that error when the snapshot has no selected track, and otherwise
    has its clip built on the first selected track. *)
Theorem leading_call_without_track (p : Parser float64)
    (dslCode part : string) (rest : list string) :
  splitMethodChains (TrimSpace dslCode) = part :: rest ->
  (forall kw msg,
     In (kw, msg) contextErrors ->
     HasPrefix (TrimSpace part) kw = true ->
     ParseDSL p dslCode = Returns [] (Some msg) p) /\
  (HasPrefix (TrimSpace part) ".newClip(" = true ->
   (noneFlagged (snapshotTracks p) ->
    ParseDSL p dslCode = Returns [] (Some clipContextError) p) /\
   (forall n, firstFlagged (snapshotTracks p) n ->
      ParseDSL p dslCode =
      match parseClipCall p (TrimSpace part) (Z.of_nat n) with
      | Ok clipAction => parseParts p [clipAction] (-1) rest
      | Err msg =>
          Returns [] (Some ("failed to parse clip call: " +:+ msg)) p
      end /\
      parseClipCall p (TrimSpace part) (Z.of_nat n) <>
      Err "no track context for clip call and no selected track found")).
Proof.
  intros Hparts. unfold ParseDSL.
  rewrite (splitMethodChains_nonempty _ _ _ Hparts), Hparts. simpl. split.
  - intros kw msg Hin Hpre.
    now rewrite (parsePart_context_error p [] (-1) part kw msg Hin Hpre).
  - intros Hpre. rewrite (parsePart_newClip _ _ _ _ Hpre). simpl. split.
    + intros Hnone. pose proof (getSelectedTrackIndex_none _ Hnone) as E.
      rewrite parseClipCall_no_track by lia. reflexivity.
    + intros n Hn. rewrite (getSelectedTrackIndex_first _ _ Hn). split.
      * destruct (parseClipCall p (TrimSpace part) (Z.of_nat n)); reflexivity.
      * apply parseClipCall_with_track. lia.
Qed.

(** ** Track creation and the index counter *)

Lemma create_track_no_index (params : gmap string string) :
  let action : ActionRecord := {[ "action" := VString "create_track" ]} in
  let action :=
    match params !! "instrument" with
    | Some instrument => <["instrument" := VString instrument]> action
    | None => action
    end in
  let action :=
    match params !! "name" with
    | Some name => <["name" := VString name]> action
    | None => action
    end in
  action !! "index" = None.
Proof.
  cbv zeta. destruct (params !! "instrument"), (params !! "name");
    repeat (rewrite lookup_insert_ne by discriminate);
    now rewrite lookup_singleton_ne by discriminate.
Qed.

Lemma parseTrackCall_auto p call :
  extractParams call !! "index" = None ->
  exists a,
    parseTrackCall p call =
    TrackReturns a (trackCounter p) None
      (mkParser (int_add (trackCounter p) 1) (state p)) /\
    a !! "index" = Some (VInt (trackCounter p)).
Proof.
  intros H. unfold parseTrackCall. rewrite H. cbv beta iota zeta.
  rewrite lookup_insert_eq. eexists. split; [reflexivity|].
  apply lookup_insert_eq.
Qed.

Lemma parseTrackCall_explicit p call s k :
  extractParams call !! "index" = Some s -> Atoi s = Some k ->
  exists a,
    parseTrackCall p call =
    TrackReturns a k None (mkParser (int_add k 1) (state p)) /\
    a !! "index" = Some (VInt k).
Proof.
  intros H1 H2. unfold parseTrackCall. rewrite H1, H2. cbv beta iota zeta.
  rewrite lookup_insert_eq. eexists. split; [reflexivity|].
  apply lookup_insert_eq.
Qed.

(** A creation call whose [index] parameter is not an integer leaves the
    record without [index], and the type assertion panics. *)
Lemma parseTrackCall_malformed_index p call s :
  extractParams call !! "index" = Some s -> Atoi s = None ->
  parseTrackCall p call =
  TrackPanics "interface conversion: interface {} is nil, not int".
Proof.
  intros H1 H2. unfold parseTrackCall. rewrite H1, H2. cbv beta iota zeta.
  now rewrite (create_track_no_index (extractParams call)).
Qed.

(** [parseTrackCall] panics on exactly these calls. *)
Lemma parseTrackCall_panics_iff p call :
  (exists reason, parseTrackCall p call = TrackPanics reason) <->
  (exists s, extractParams call !! "index" = Some s /\ Atoi s = None).
Proof.
  split.
  - intros [reason H].
    destruct (extractParams call !! "index") as [s|] eqn:Hs.
    + destruct (Atoi s) as [k|] eqn:Hk; [|eauto].
      destruct (parseTrackCall_explicit p call s k Hs Hk) as [a [E _]].
      congruence.
    + destruct (parseTrackCall_auto p call Hs) as [a [E _]]. congruence.
  - intros [s [Hs Hk]]. eexists.
    now apply parseTrackCall_malformed_index with s.
Qed.



(** ** Clips *)

Lemma params_newClip_bar :
  extractParams ".newClip(bar=3)" = {[ "bar" := "3" ]}.
Proof. vm_compute. reflexivity. Qed.

Lemma params_newClip_start :
  extractParams ".newClip(start=1.5, length=2.0)" =
  {[ "start" := "1.5"; "length" := "2.0" ]}.
Proof. vm_compute. reflexivity. Qed.

Lemma params_newClip_length_bars :
  extractParams ".newClip(length_bars=4)" = {[ "length_bars" := "4" ]}.
Proof. vm_compute. reflexivity. Qed.

Lemma parseClipCall_missing p call t :
  0 <= t ->
  extractParams call !! "bar" = None ->
  extractParams call !! "start" = None ->
  extractParams call !! "position" = None ->
  parseClipCall p call t = Err "clip call must specify bar or start/position".
Proof.
  intros Ht Hbar Hstart Hpos. unfold parseClipCall.
  assert (E : (t <? 0) = false) by (apply Z.ltb_ge; exact Ht).
  rewrite E. cbv beta iota zeta. rewrite E, Hbar, Hstart, Hpos.
  reflexivity.
Qed.

Lemma parseClipCall_bar p call t bar barInt :
  0 <= t ->
  extractParams call !! "bar" = Some bar -> Atoi bar = Some barInt ->
  extractParams call !! "length_bars" = None ->
  parseClipCall p call t =
  Ok {[ "action" := VString "create_clip_at_bar"; "track" := VInt t;
        "bar" := VInt barInt; "length_bars" := VInt 4 ]}.
Proof.
  intros Ht Hbar Hint Hlen. unfold parseClipCall.
  assert (E : (t <? 0) = false) by (apply Z.ltb_ge; exact Ht).
  rewrite E. cbv beta iota zeta. rewrite E, Hbar, Hint, Hlen.
  vm_compute. reflexivity.
Qed.

Lemma parseClipCall_start p call t start length position lengthFloat :
  0 <= t ->
  extractParams call !! "bar" = None ->
  extractParams call !! "start" = Some start ->
  extractParams call !! "length" = Some length ->
  ParseFloat start = Some position -> ParseFloat length = Some lengthFloat ->
  parseClipCall p call t =
  Ok {[ "action" := VString "create_clip"; "track" := VInt t;
        "position" := VFloat position; "length" := VFloat lengthFloat ]}.
Proof.
  intros Ht Hbar Hstart Hlength Hpos Hlen. unfold parseClipCall.
  assert (E : (t <? 0) = false) by (apply Z.ltb_ge; exact Ht).
  rewrite E. cbv beta iota zeta. rewrite E, Hbar, Hstart.
  unfold clipAtTime. rewrite Hpos, Hlength, Hlen.
  vm_compute. reflexivity.
Qed.

(** C6: on a resolved track [t], [newClip(bar=3)] gives the record
    [{action: create_clip_at_bar, track: t, bar: 3, length_bars: 4}];
    [newClip(start=1.5, length=2.0)] gives [{action: create_clip, track: t,
    position: 1.5, length: 2.0}], the two numbers being what [ParseFloat]
    reads; a [newClip] call with none of [bar], [start], [position], such
    as [newClip(length_bars=4)], fails with the error that one of them must
    be given. *)
Theorem newClip_records (p : Parser float64) (t : Z) :
  0 <= t ->
  parseClipCall p ".newClip(bar=3)" t =
    Ok {[ "action" := VString "create_clip_at_bar"; "track" := VInt t;
          "bar" := VInt 3; "length_bars" := VInt 4 ]} /\
  (forall position length,
     ParseFloat "1.5" = Some position -> ParseFloat "2.0" = Some length ->
     parseClipCall p ".newClip(start=1.5, length=2.0)" t =
       Ok {[ "action" := VString "create_clip"; "track" := VInt t;
             "position" := VFloat position; "length" := VFloat length ]}) /\
  (forall call,
     extractParams call !! "bar" = None ->
     extractParams call !! "start" = None ->
     extractParams call !! "position" = None ->
     parseClipCall p call t =
       Err "clip call must specify bar or start/position") /\
  parseClipCall p ".newClip(length_bars=4)" t =
    Err "clip call must specify bar or start/position".
Proof.
  intros Ht. repeat split.
  - apply parseClipCall_bar with "3"; try exact Ht;
      rewrite ?params_newClip_bar; vm_compute; reflexivity.
  - intros position length Hposition Hlength.
    apply parseClipCall_start with "1.5" "2.0";
      try exact Ht; try exact Hposition; try exact Hlength;
      rewrite params_newClip_start; vm_compute; reflexivity.
  - intros call. now apply parseClipCall_missing.
  - apply parseClipCall_missing; [exact Ht | | |];
      rewrite params_newClip_length_bars; vm_compute; reflexivity.
Qed.

(** ** Numbers that do not parse *)

(** A [volume_db] that [ParseFloat] rejects is left out of the record and
    the builder returns normally. *)
Lemma parseVolumeCall_malformed p call t text :
  0 <= t ->
  extractParams call !! "volume_db" = Some text ->
  ParseFloat text = None ->
  parseVolumeCall p call t =
  Ok {[ "action" := VString "set_track_volume"; "track" := VInt t ]}.
Proof.
  intros Ht Hv Hf. unfold parseVolumeCall.
  assert (E : (t <? 0) = false) by (apply Z.ltb_ge; exact Ht).
  rewrite E, Hv, Hf. vm_compute. reflexivity.
Qed.

(** C2, on the code: [track(index=abc)] is a creation call whose [index]
    does not parse; [parseTrackCall] leaves the record without [index] and
    the type assertion on it panics, so [ParseDSL] does not return. *)
Theorem malformed_track_index_panics :
  ParseDSL NewParser "track(index=abc)" =
  Panics "interface conversion: interface {} is nil, not int" NewParser.
Proof. vm_compute. reflexivity. Qed.

(** ** MIDI *)

(** C3, on the code: [parseMidiCall] does not read the call; the record it
    builds carries an empty [notes] slice whether the call gives notes or
    not, and a call without [notes] does not fail. *)
Theorem midi_notes_not_read :
  (forall p call t, parseMidiCall p call t = parseMidiCall p EmptyString t) /\
  ParseDSL NewParser
    "track().addMidi(notes=[{pitch=60, velocity=100, start=0, duration=1}])" =
    Returns [ {[ "action" := VString "create_track"; "index" := VInt 0 ]};
              {[ "action" := VString "add_midi"; "track" := VInt 0;
                 "notes" := VSlice [] ]} ]
            None (mkParser 1 None) /\
  ParseDSL NewParser "track().addMidi()" =
    Returns [ {[ "action" := VString "create_track"; "index" := VInt 0 ]};
              {[ "action" := VString "add_midi"; "track" := VInt 0;
                 "notes" := VSlice [] ]} ]
            None (mkParser 1 None).
Proof.
  split; [reflexivity|]. split; vm_compute; reflexivity.
Qed.

End Facts.

(** * Further properties of the scanners, the builders and the loop *)

Section Coverage.

Context `{F64 : Float64}.

(** ** Strings *)

Lemma append_cons (c : ascii) (s t : string) :
  String c s +:+ t = String c (s +:+ t).
Proof. reflexivity. Qed.

Lemma append_empty_l (t : string) : EmptyString +:+ t = t.
Proof. reflexivity. Qed.

Lemma append_empty_r (s : string) : s +:+ EmptyString = s.
Proof.
  induction s as [|c s IH]; [reflexivity|]. now rewrite append_cons, IH.
Qed.

Lemma append_assoc (a b c : string) : (a +:+ b) +:+ c = a +:+ (b +:+ c).
Proof.
  induction a as [|x a IH]; [reflexivity|]. now rewrite !append_cons, IH.
Qed.

Lemma WriteRune_append (cur text : string) (c : ascii) :
  WriteRune cur c +:+ text = cur +:+ String c text.
Proof. unfold WriteRune. now rewrite append_assoc. Qed.


Lemma allChars_app ok (a b : string) :
  allChars ok (a +:+ b) = allChars ok a && allChars ok b.
Proof.
  induction a as [|c a IH]; [reflexivity|].
  rewrite append_cons. simpl. now rewrite IH, andb_assoc.
Qed.

(** ** [splitMethodChains] *)




Lemma splitStep_closed st c :
  Forall endsWithParen (sp_parts st) ->
  Forall endsWithParen (sp_parts (splitStep st c)).
Proof.
  destruct st as [parts current depth inString escape]. unfold splitStep.
  intros H.
  repeat match goal with
         | |- context [if ?b then _ else _] => destruct b eqn:?
         end; simpl; try exact H.
  apply Forall_app. split; [exact H|]. constructor; [|constructor].
  exists current. unfold WriteRune.
  match goal with
  | E : Ascii.eqb c ")" = true |- _ => apply Ascii.eqb_eq in E; now rewrite E
  end.
Qed.

Lemma splitLoop_closed s : forall st,
  Forall endsWithParen (sp_parts st) ->
  Forall endsWithParen (sp_parts (splitLoop st s)).
Proof.
  induction s as [|c s IH]; intros st H; simpl; [exact H|].
  apply IH. now apply splitStep_closed.
Qed.

Lemma endsWithParen_nonempty part : endsWithParen part -> part <> EmptyString.
Proof. intros [[|c body] ->]; discriminate. Qed.

(** X2: no part of a split is empty, and every part but the last ends
    with a closing parenthesis; only the last part can be an unfinished
    call. *)
Theorem splitMethodChains_parts (dslCode : string) :
  Forall (fun part => part <> EmptyString) (splitMethodChains dslCode) /\
  Forall endsWithParen (removelast (splitMethodChains dslCode)).
Proof.
  unfold splitMethodChains.
  assert (H : Forall endsWithParen (sp_parts (splitLoop splitInit dslCode)))
    by (apply splitLoop_closed; constructor).
  destruct (sp_current (splitLoop splitInit dslCode)) as [|c cur] eqn:E;
    simpl.
  - split.
    + eapply Forall_impl; [exact H|]. apply endsWithParen_nonempty.
    + revert H. generalize (sp_parts (splitLoop splitInit dslCode)).
      intros l H. induction H as [|x l Hx Hl IH]; [constructor|].
      simpl. destruct l; [constructor|]. constructor; assumption.
  - rewrite removelast_last. split; [|exact H].
    apply Forall_app. split.
    + eapply Forall_impl; [exact H|]. apply endsWithParen_nonempty.
    + constructor; [discriminate | constructor].
Qed.

Lemma splitLoop_cons st c s :
  splitLoop st (String c s) = splitLoop (splitStep st c) s.
Proof. reflexivity. Qed.

Lemma splitLoop_app a : forall b st,
  splitLoop st (a +:+ b) = splitLoop (splitLoop st a) b.
Proof.
  induction a as [|c a IH]; intros b st; [reflexivity|].
  rewrite append_cons. simpl. apply IH.
Qed.

Lemma splitSpecial_false c :
  splitSpecial c = false ->
  Ascii.eqb c backslash = false /\ Ascii.eqb c dquote = false /\
  Ascii.eqb c "(" = false /\ Ascii.eqb c ")" = false.
Proof.
  unfold splitSpecial. intros H.
  repeat (apply orb_false_elim in H; destruct H as [H ?]). auto.
Qed.

(** Text without quotes, backslashes and parentheses goes to the current
    part, inside a string or not. *)
Lemma splitLoop_bare text : forall parts current depth inString,
  allChars (fun c => negb (splitSpecial c)) text = true ->
  splitLoop (SplitState parts current depth inString false) text =
  SplitState parts (current +:+ text) depth inString false.
Proof.
  induction text as [|c text IH]; intros parts current depth inString H.
  - now rewrite append_empty_r.
  - simpl in H. apply andb_prop in H as [Hc H].
    apply negb_true_iff, splitSpecial_false in Hc as (H1 & H2 & H3 & H4).
    simpl. rewrite H1, H2, H3, H4, IH by exact H.
    now rewrite WriteRune_append.
Qed.

(** Inside a string, text without quotes and backslashes goes to the
    current part; its parentheses do not count. *)
Lemma splitLoop_in_string text : forall parts current depth,
  allChars (fun c => negb (isQuoteOrBackslash c)) text = true ->
  splitLoop (SplitState parts current depth true false) text =
  SplitState parts (current +:+ text) depth true false.
Proof.
  induction text as [|c text IH]; intros parts current depth H.
  - now rewrite append_empty_r.
  - simpl in H. apply andb_prop in H as [Hc H].
    apply negb_true_iff in Hc. unfold isQuoteOrBackslash in Hc.
    apply orb_false_elim in Hc as [H1 H2].
    simpl. rewrite H1, H2.
    destruct (Ascii.eqb c "("); [|destruct (Ascii.eqb c ")")];
      simpl; rewrite IH by exact H; now rewrite WriteRune_append.
Qed.

Lemma splitLoop_quoted text parts current depth :
  allChars (fun c => negb (isQuoteOrBackslash c)) text = true ->
  splitLoop (SplitState parts current depth false false) (quoted text) =
  SplitState parts (current +:+ quoted text) depth false false.
Proof.
  intros H. unfold quoted. rewrite append_cons. simpl.
  rewrite splitLoop_app, splitLoop_in_string by exact H. simpl.
  rewrite !WriteRune_append. unfold WriteRune.
  now rewrite !append_assoc, !append_cons.
Qed.

Lemma splitLoop_pieces args : forall parts current depth,
  forallb pieceOk args = true ->
  splitLoop (SplitState parts current depth false false) (renderPieces args) =
  SplitState parts (current +:+ renderPieces args) depth false false.
Proof.
  induction args as [|x args IH]; intros parts current depth H.
  - unfold renderPieces. simpl. now rewrite append_empty_r.
  - simpl in H. apply andb_prop in H as [Hx H].
    change (renderPieces (x :: args))
      with (renderPiece x +:+ renderPieces args).
    rewrite splitLoop_app.
    destruct x as [text|text]; unfold renderPiece; simpl pieceOk in Hx.
    + rewrite splitLoop_bare, IH by assumption. now rewrite append_assoc.
    + rewrite splitLoop_quoted, IH by assumption. now rewrite append_assoc.
Qed.

(** A call on its own is one part, and the loop is back where it began. *)
Lemma splitLoop_call name args parts :
  allChars (fun c => negb (splitSpecial c)) name = true ->
  forallb pieceOk args = true ->
  splitLoop (SplitState parts EmptyString 0 false false)
            (renderCall name args) =
  SplitState (parts ++ [renderCall name args]) EmptyString 0 false false.
Proof.
  intros Hname Hargs. unfold renderCall.
  rewrite splitLoop_app, splitLoop_bare by exact Hname.
  rewrite (splitLoop_app "("). simpl splitLoop at 2.
  change (int_add 0 1) with 1.
  rewrite splitLoop_app, splitLoop_pieces by exact Hargs.
  simpl. change (int_sub 1 1 =? 0) with true. cbv iota.
  change (int_sub 1 1) with 0.
  unfold WriteRune. now rewrite !append_assoc.
Qed.

(** The parts found so far do not influence what the loop does next. *)
Lemma splitLoop_parts s : forall before parts current depth inString escape,
  splitLoop (SplitState (before ++ parts) current depth inString escape) s =
  let st := splitLoop (SplitState parts current depth inString escape) s in
  SplitState (before ++ sp_parts st) (sp_current st) (sp_depth st)
             (sp_inString st) (sp_escape st).
Proof.
  induction s as [|c s IH];
    intros before parts current depth inString escape.
  - reflexivity.
  - rewrite !splitLoop_cons.
    assert (E : splitStep
                  (SplitState (before ++ parts) current depth inString escape)
                  c =
                let st := splitStep
                            (SplitState parts current depth inString escape)
                            c in
                SplitState (before ++ sp_parts st) (sp_current st)
                           (sp_depth st) (sp_inString st) (sp_escape st)).
    { unfold splitStep.
      repeat match goal with
             | |- context [if ?b then _ else _] => destruct b
             end; simpl; rewrite ?app_assoc; reflexivity. }
    rewrite E. cbv zeta.
    destruct (splitStep (SplitState parts current depth inString escape) c)
      as [parts' current' depth' inString' escape'].
    simpl. apply IH.
Qed.

(** A rendered call is split off as one part. *)
Lemma split_rendered_call (name : string) (args : list piece)
    (rest : string) :
  allChars (fun c => negb (splitSpecial c)) name = true ->
  forallb pieceOk args = true ->
  splitMethodChains (renderCall name args +:+ rest) =
  renderCall name args :: splitMethodChains rest.
Proof.
  intros Hname Hargs. unfold splitMethodChains.
  rewrite splitLoop_app. unfold splitInit.
  rewrite (splitLoop_call name args []) by assumption.
  change (@app string [] [renderCall name args])
    with (@app string [renderCall name args] []).
  rewrite splitLoop_parts. cbv zeta. simpl.
  destruct (isEmpty _); reflexivity.
Qed.

(** X3: a call whose name has no quote, backslash or parenthesis, and
    whose arguments are made of such text and of quoted strings, is split
    off as one part, whatever follows it; parentheses, dots and commas
    inside its quoted strings do not split it. *)
Theorem splitMethodChains_call (name : string) (args : list piece)
    (rest : string) :
  allChars (fun c => negb (splitSpecial c)) name = true ->
  forallb pieceOk args = true ->
  splitMethodChains (renderCall name args +:+ rest) =
  renderCall name args :: splitMethodChains rest.
Proof. intros Hname Hargs. now apply split_rendered_call. Qed.

(** ** [strings.Index], [strings.LastIndex], slices and [TrimSpace] *)

Lemma Index_app_absent (c : ascii) (a r : string) :
  allChars (fun x => negb (Ascii.eqb x c)) a = true ->
  Index (a +:+ String c r) c = Z.of_nat (String.length a).
Proof.
  induction a as [|x a IH]; intros H.
  - simpl. now rewrite Ascii.eqb_refl.
  - simpl in H. apply andb_prop in H as [Hx H]. apply negb_true_iff in Hx.
    rewrite append_cons. simpl Index. rewrite Hx, (IH H).
    destruct (Z.ltb_spec (Z.of_nat (String.length a)) 0); [lia|].
    simpl String.length. lia.
Qed.

Lemma LastIndex_ge (c : ascii) (s : string) : -1 <= LastIndex s c.
Proof.
  induction s as [|x s IH]; simpl; [lia|].
  destruct (Z.leb_spec 0 (LastIndex s c)); [lia|].
  destruct (Ascii.eqb x c); lia.
Qed.

Lemma LastIndex_app (c : ascii) (a b : string) :
  LastIndex (a +:+ b) c =
  if 0 <=? LastIndex b c then Z.of_nat (String.length a) + LastIndex b c
  else LastIndex a c.
Proof.
  induction a as [|x a IH].
  - rewrite append_empty_l. simpl.
    pose proof (LastIndex_ge c b).
    destruct (Z.leb_spec 0 (LastIndex b c)); lia.
  - rewrite append_cons. simpl LastIndex. rewrite IH.
    destruct (Z.leb_spec 0 (LastIndex b c)).
    + destruct (Z.leb_spec 0 (Z.of_nat (String.length a) + LastIndex b c));
        [|lia].
      simpl String.length. lia.
    + reflexivity.
Qed.

Lemma LastIndex_absent (c : ascii) (a : string) :
  allChars (fun x => negb (Ascii.eqb x c)) a = true -> LastIndex a c = -1.
Proof.
  induction a as [|x a IH]; intros H; [reflexivity|].
  simpl in H. apply andb_prop in H as [Hx H]. apply negb_true_iff in Hx.
  simpl. now rewrite (IH H), Hx.
Qed.

Lemma substring_app_skip (a b : string) (n m : nat) :
  substring (String.length a + n) m (a +:+ b) = substring n m b.
Proof. induction a as [|x a IH]; [reflexivity | exact IH]. Qed.

Lemma slice_app_skip (a b : string) (lo hi : Z) :
  0 <= lo ->
  slice (a +:+ b) (Z.of_nat (String.length a) + lo)
        (Z.of_nat (String.length a) + hi) =
  slice b lo hi.
Proof.
  intros Hlo. unfold slice.
  replace (Z.to_nat (Z.of_nat (String.length a) + lo))
    with (String.length a + Z.to_nat lo)%nat by lia.
  replace (Z.of_nat (String.length a) + hi -
           (Z.of_nat (String.length a) + lo)) with (hi - lo) by lia.
  apply substring_app_skip.
Qed.

Lemma substring_prefix (a b : string) :
  substring 0 (String.length a) (a +:+ b) = a.
Proof.
  induction a as [|x a IH]; [destruct b; reflexivity|].
  rewrite append_cons. simpl. now rewrite IH.
Qed.

Lemma length_TrimLeft (s : string) :
  TrimLeft s = s \/ (String.length (TrimLeft s) < String.length s)%nat.
Proof.
  induction s as [|c s IH]; [left; reflexivity|].
  simpl. destruct (isSpace c); [|left; reflexivity].
  right. destruct IH as [->|IH]; simpl; lia.
Qed.

Lemma length_TrimRight (s : string) :
  (String.length (TrimRight s) <= String.length s)%nat.
Proof.
  induction s as [|c s IH]; [reflexivity|].
  simpl. destruct (TrimRight s) as [|x r].
  - destruct (isSpace c); simpl; lia.
  - simpl in *. lia.
Qed.

Lemma TrimSpace_fixed_left (w : string) : TrimSpace w = w -> TrimLeft w = w.
Proof.
  unfold TrimSpace. intros H.
  destruct (length_TrimLeft w) as [E|E]; [exact E|].
  pose proof (length_TrimRight (TrimLeft w)) as L. rewrite H in L. lia.
Qed.

Lemma TrimSpace_fixed_right (w : string) : TrimSpace w = w -> TrimRight w = w.
Proof.
  intros H. pose proof (TrimSpace_fixed_left w H) as E.
  unfold TrimSpace in H. now rewrite E in H.
Qed.

Lemma TrimLeft_spaces (pad s : string) :
  allChars isSpace pad = true -> TrimLeft (pad +:+ s) = TrimLeft s.
Proof.
  induction pad as [|c pad IH]; intros H; [reflexivity|].
  simpl in H. apply andb_prop in H as [Hc H].
  rewrite append_cons. simpl. now rewrite Hc, IH.
Qed.

Lemma TrimLeft_app (a b : string) :
  a <> EmptyString -> TrimLeft a = a -> TrimLeft (a +:+ b) = a +:+ b.
Proof.
  destruct a as [|c a]; [congruence|]. intros _ H.
  rewrite append_cons. simpl in *.
  destruct (isSpace c); [|reflexivity].
  exfalso. destruct (length_TrimLeft a) as [E|E].
  - rewrite E in H. apply (f_equal String.length) in H. simpl in H. lia.
  - apply (f_equal String.length) in H. simpl in H. lia.
Qed.

Lemma TrimRight_app (a b : string) :
  b <> EmptyString -> TrimRight b = b -> TrimRight (a +:+ b) = a +:+ b.
Proof.
  intros Hb H. induction a as [|c a IH]; [exact H|].
  rewrite append_cons. simpl. rewrite IH.
  destruct (a +:+ b) eqn:E; [|reflexivity].
  destruct a; [|discriminate]. rewrite append_empty_l in E. congruence.
Qed.

Lemma TrimRight_spaces (s pad : string) :
  allChars isSpace pad = true -> TrimRight (s +:+ pad) = TrimRight s.
Proof.
  intros H.
  assert (E : TrimRight pad = EmptyString).
  { induction pad as [|c pad IH]; [reflexivity|].
    simpl in H. apply andb_prop in H as [Hc H].
    simpl. now rewrite (IH H), Hc. }
  induction s as [|c s IH].
  - rewrite append_empty_l. exact E.
  - rewrite append_cons. simpl. now rewrite IH.
Qed.

Lemma TrimRight_idempotent (s : string) : TrimRight (TrimRight s) = TrimRight s.
Proof.
  induction s as [|c s IH]; [reflexivity|].
  simpl. destruct (TrimRight s) as [|x r] eqn:E.
  - destruct (isSpace c) eqn:Hc; [reflexivity|]. simpl. now rewrite Hc.
  - simpl in *. now rewrite IH.
Qed.

Lemma TrimLeft_idempotent (s : string) : TrimLeft (TrimLeft s) = TrimLeft s.
Proof.
  induction s as [|c s IH]; [reflexivity|].
  simpl. destruct (isSpace c) eqn:Hc; [exact IH|]. simpl. now rewrite Hc.
Qed.

(** [TrimRight] does not bring a blank to the front. *)
Lemma TrimLeft_TrimRight (s : string) :
  TrimLeft s = s -> TrimLeft (TrimRight s) = TrimRight s.
Proof.
  destruct s as [|c s]; [reflexivity|]. simpl.
  destruct (isSpace c) eqn:Hc.
  - intros H. exfalso. destruct (length_TrimLeft s) as [E|E].
    + rewrite E in H. apply (f_equal String.length) in H. simpl in H. lia.
    + apply (f_equal String.length) in H. simpl in H. lia.
  - intros _. destruct (TrimRight s); simpl; now rewrite Hc.
Qed.

Lemma TrimSpace_idempotent (s : string) : TrimSpace (TrimSpace s) = TrimSpace s.
Proof.
  unfold TrimSpace.
  rewrite (TrimLeft_TrimRight (TrimLeft s)) by apply TrimLeft_idempotent.
  apply TrimRight_idempotent.
Qed.

Lemma TrimLeft_blank (pad : string) :
  allChars isSpace pad = true -> TrimLeft pad = EmptyString.
Proof.
  induction pad as [|c pad IH]; intros H; [reflexivity|].
  simpl in H. apply andb_prop in H as [Hc H]. simpl. now rewrite Hc, IH.
Qed.

Lemma TrimSpace_padding (pad1 s pad2 : string) :
  allChars isSpace pad1 = true -> allChars isSpace pad2 = true ->
  TrimSpace (pad1 +:+ s +:+ pad2) = TrimSpace s.
Proof.
  intros H1 H2. unfold TrimSpace.
  rewrite TrimLeft_spaces by exact H1.
  induction s as [|c s IH].
  - rewrite append_empty_l. now rewrite TrimLeft_blank.
  - rewrite append_cons. simpl. destruct (isSpace c) eqn:Hc; [exact IH|].
    rewrite <- append_cons. now apply TrimRight_spaces.
Qed.

(** ** [extractParams] *)

Lemma length_append (a b : string) :
  String.length (a +:+ b) = (String.length a + String.length b)%nat.
Proof.
  induction a as [|c a IH]; [reflexivity|].
  rewrite append_cons. simpl. now rewrite IH.
Qed.

Lemma allChars_weaken (ok1 ok2 : ascii -> bool) (s : string) :
  (forall c, ok1 c = true -> ok2 c = true) ->
  allChars ok1 s = true -> allChars ok2 s = true.
Proof.
  intros Hok. induction s as [|c s IH]; [reflexivity|].
  simpl. intros H. apply andb_prop in H as [Hc H].
  now rewrite (Hok c Hc), IH.
Qed.

(** The text between the first opening and the last closing parenthesis
    is all [extractParams] reads. *)
Lemma extractParams_call (name content : string) :
  allChars (fun c => negb (Ascii.eqb c "(")) name = true ->
  extractParams (name +:+ "(" +:+ content +:+ ")") = paramsOfContent content.
Proof.
  intros Hname. unfold extractParams, paramsOfContent, paramsAfter.
  assert (EI : Index (name +:+ "(" +:+ content +:+ ")") "(" =
               Z.of_nat (String.length name))
    by exact (Index_app_absent "(" name (content +:+ ")") Hname).
  assert (EL : LastIndex (name +:+ "(" +:+ content +:+ ")") ")" =
               Z.of_nat (String.length name) +
               (1 + Z.of_nat (String.length content))).
  { rewrite <- (append_assoc name "(" (content +:+ ")")).
    rewrite <- (append_assoc (name +:+ "(") content ")").
    rewrite LastIndex_app. simpl (LastIndex ")" ")").
    change (0 <=? 0) with true. cbv iota.
    rewrite !length_append. simpl String.length. lia. }
  rewrite EI, EL. clear EI EL.
  set (n := Z.of_nat (String.length name)).
  set (m := Z.of_nat (String.length content)).
  destruct (Z.ltb_spec n 0); [lia|].
  destruct (Z.ltb_spec (n + (1 + m)) 0); [lia|].
  destruct (Z.leb_spec (n + (1 + m)) n); [lia|]. simpl orb. cbv iota.
  subst n m. rewrite slice_app_skip by lia.
  unfold slice. replace (Z.to_nat 1) with 1%nat by reflexivity.
  replace (Z.to_nat (1 + Z.of_nat (String.length content) - 1))
    with (String.length content) by lia.
  change (substring 1 (String.length content) ("(" +:+ content +:+ ")"))
    with (substring 0 (String.length content) (content +:+ ")")).
  rewrite substring_prefix. reflexivity.
Qed.

(** The name in front of the first parenthesis does not matter. *)
Lemma extractParams_name (name r : string) :
  allChars (fun c => negb (isParen c)) name = true ->
  extractParams (name +:+ String "(" r) = extractParams (String "(" r).
Proof.
  intros Hname.
  assert (H1 : allChars (fun c => negb (Ascii.eqb c "(")) name = true).
  { revert Hname. apply allChars_weaken. intros c. unfold isParen.
    destruct (Ascii.eqb c "("); [discriminate | reflexivity]. }
  assert (H2 : allChars (fun c => negb (Ascii.eqb c ")")) name = true).
  { revert Hname. apply allChars_weaken. intros c. unfold isParen.
    destruct (Ascii.eqb c ")"); [|reflexivity].
    rewrite orb_true_r. discriminate. }
  unfold extractParams.
  rewrite (Index_app_absent "(" name r H1).
  change (Index (String "(" r) "(") with 0.
  rewrite LastIndex_app, (LastIndex_absent ")" name H2).
  set (n := Z.of_nat (String.length name)).
  set (L := LastIndex (String "(" r) ")").
  destruct (Z.leb_spec 0 L) as [HL|HL].
  - destruct (Z.ltb_spec n 0); [lia|].
    destruct (Z.ltb_spec (n + L) 0); [lia|].
    destruct (Z.ltb_spec L 0); [lia|].
    change (0 <? 0) with false. simpl orb.
    destruct (Z.leb_spec (n + L) n), (Z.leb_spec L 0); try lia;
      [reflexivity|].
    subst n. replace (Z.of_nat (String.length name) + 1)
      with (Z.of_nat (String.length name) + (0 + 1)) by lia.
    rewrite slice_app_skip by lia. reflexivity.
  - destruct (Z.ltb_spec L 0); [|lia].
    change (-1 <? 0) with true. now rewrite !orb_true_r.
Qed.

Lemma paramSpecial_false c :
  paramSpecial c = false ->
  Ascii.eqb c backslash = false /\ Ascii.eqb c dquote = false /\
  Ascii.eqb c "=" = false /\ Ascii.eqb c "," = false.
Proof.
  unfold paramSpecial. intros H.
  repeat (apply orb_false_elim in H; destruct H as [H ?]). auto.
Qed.

Lemma paramLoop_cons st c s :
  paramLoop st (String c s) = paramLoop (paramStep st c) s.
Proof. reflexivity. Qed.

Lemma paramLoop_app a : forall b st,
  paramLoop st (a +:+ b) = paramLoop (paramLoop st a) b.
Proof.
  induction a as [|c a IH]; intros b st; [reflexivity|].
  rewrite append_cons, !paramLoop_cons. apply IH.
Qed.

(** Before the equals sign, plain text goes to the key. *)
Lemma paramLoop_key text : forall params key value inString paramKey,
  allChars (fun c => negb (paramSpecial c)) text = true ->
  paramLoop (ParamState params key value inString false false paramKey) text =
  ParamState params (key +:+ text) value inString false false paramKey.
Proof.
  induction text as [|c text IH]; intros params key value inString paramKey H.
  - now rewrite append_empty_r.
  - simpl in H. apply andb_prop in H as [Hc H].
    apply negb_true_iff, paramSpecial_false in Hc as (H1 & H2 & H3 & H4).
    rewrite paramLoop_cons. unfold paramStep. rewrite H1, H2, H3, H4.
    rewrite IH by exact H. now rewrite WriteRune_append.
Qed.

(** After the equals sign, plain text goes to the value. *)
Lemma paramLoop_value text : forall params key value inString paramKey,
  allChars (fun c => negb (paramSpecial c)) text = true ->
  paramLoop (ParamState params key value inString false true paramKey) text =
  ParamState params key (value +:+ text) inString false true paramKey.
Proof.
  induction text as [|c text IH]; intros params key value inString paramKey H.
  - now rewrite append_empty_r.
  - simpl in H. apply andb_prop in H as [Hc H].
    apply negb_true_iff, paramSpecial_false in Hc as (H1 & H2 & H3 & H4).
    rewrite paramLoop_cons. unfold paramStep. rewrite H1, H2, H3, H4.
    rewrite IH by exact H. now rewrite WriteRune_append.
Qed.

(** Inside a string, everything but a quote or a backslash goes to the
    value, commas and equals signs too. *)
Lemma paramLoop_in_string text : forall params key value paramKey,
  allChars (fun c => negb (isQuoteOrBackslash c)) text = true ->
  paramLoop (ParamState params key value true false true paramKey) text =
  ParamState params key (value +:+ text) true false true paramKey.
Proof.
  induction text as [|c text IH]; intros params key value paramKey H.
  - now rewrite append_empty_r.
  - simpl in H. apply andb_prop in H as [Hc H].
    apply negb_true_iff in Hc. unfold isQuoteOrBackslash in Hc.
    apply orb_false_elim in Hc as [H1 H2].
    rewrite paramLoop_cons. unfold paramStep. rewrite H1, H2.
    destruct (Ascii.eqb c "="); [|destruct (Ascii.eqb c ",")];
      simpl; rewrite IH by exact H; now rewrite WriteRune_append.
Qed.

Lemma plainWord_inv w :
  plainWord w = true ->
  w <> EmptyString /\
  allChars (fun c => negb (paramSpecial c)) w = true /\ TrimSpace w = w.
Proof.
  unfold plainWord. intros H.
  apply andb_prop in H as [H H3]. apply andb_prop in H as [H1 H2].
  apply String.eqb_eq in H3. repeat split; try assumption.
  destruct w; [discriminate H1 | discriminate].
Qed.

Lemma TrimSpace_pad_word pad w :
  allChars isSpace pad = true -> TrimSpace w = w -> TrimSpace (pad +:+ w) = w.
Proof.
  intros Hpad Hw. rewrite <- (append_empty_r w) at 1.
  rewrite (TrimSpace_padding pad w EmptyString Hpad eq_refl). exact Hw.
Qed.

Lemma paramLoop_equals params pad key :
  allChars isSpace pad = true -> plainWord key = true ->
  paramLoop (atParam params pad) (key +:+ "=") =
  afterValue params key EmptyString.
Proof.
  intros Hpad Hkey. apply plainWord_inv in Hkey as (_ & Hchars & Htrim).
  unfold atParam. rewrite paramLoop_app, paramLoop_key by exact Hchars.
  simpl. now rewrite TrimSpace_pad_word.
Qed.

Lemma paramLoop_plain params pad key text :
  allChars isSpace pad = true -> plainWord key = true ->
  plainWord text = true ->
  paramLoop (atParam params pad) (key +:+ "=" +:+ text) =
  afterValue params key text.
Proof.
  intros Hpad Hkey Htext. apply plainWord_inv in Htext as (_ & Hchars & _).
  rewrite <- append_assoc, paramLoop_app, paramLoop_equals by assumption.
  unfold afterValue. now rewrite paramLoop_value by exact Hchars.
Qed.

Lemma paramLoop_quoted params pad key text :
  allChars isSpace pad = true -> plainWord key = true ->
  allChars (fun c => negb (isQuoteOrBackslash c)) text = true ->
  paramLoop (atParam params pad) (key +:+ "=" +:+ quoted text) =
  atParam (<[key := text]> params) EmptyString.
Proof.
  intros Hpad Hkey Htext.
  rewrite <- append_assoc, paramLoop_app, paramLoop_equals by assumption.
  apply plainWord_inv in Hkey as (Hne & _ & _).
  unfold afterValue, quoted. rewrite append_cons, paramLoop_cons.
  change (paramStep
            (ParamState params EmptyString EmptyString false false true key)
            dquote)
    with (ParamState params EmptyString EmptyString true false true key).
  rewrite paramLoop_app, paramLoop_in_string by exact Htext.
  rewrite append_empty_l. simpl.
  destruct key; [congruence | reflexivity].
Qed.

Lemma paramLoop_comma_after_value params key text :
  plainWord key = true -> plainWord text = true ->
  paramLoop (afterValue params key text) ", " =
  atParam (<[key := text]> params) " ".
Proof.
  intros Hkey Htext.
  apply plainWord_inv in Hkey as (Hk & _ & _).
  apply plainWord_inv in Htext as (Ht & _ & Htrim).
  unfold afterValue. simpl. rewrite Htrim.
  destruct key; [congruence|]. destruct text; [congruence | reflexivity].
Qed.

Lemma paramLoop_comma_after_string params :
  paramLoop (atParam params EmptyString) ", " = atParam params " ".
Proof. reflexivity. Qed.

Lemma paramsAfter_value params key text :
  plainWord key = true -> plainWord text = true ->
  paramsAfter (afterValue params key text) = <[key := text]> params.
Proof.
  intros Hkey Htext.
  apply plainWord_inv in Hkey as (Hk & _ & _).
  apply plainWord_inv in Htext as (Ht & _ & Htrim).
  unfold paramsAfter, afterValue. simpl. rewrite Htrim.
  destruct key; [congruence|]. destruct text; [congruence | reflexivity].
Qed.

Lemma renderParams_cons key v kv rest :
  renderParams ((key, v) :: kv :: rest) =
  (key +:+ "=" +:+ renderLiteral v) +:+ ", " +:+ renderParams (kv :: rest).
Proof.
  change (renderParams ((key, v) :: kv :: rest))
    with (key +:+ "=" +:+ renderLiteral v +:+ ", " +:+
          renderParams (kv :: rest)).
  now rewrite !append_assoc.
Qed.

Lemma paramLoop_render kvs : forall params pad,
  kvs <> [] -> forallb paramOk kvs = true ->
  allChars isSpace pad = true ->
  paramsAfter (paramLoop (atParam params pad) (renderParams kvs)) =
  fold_left (fun m kv => <[fst kv := literalText (snd kv)]> m) kvs params.
Proof.
  induction kvs as [|[key v] rest IH]; intros params pad Hne Hok Hpad;
    [congruence|].
  simpl in Hok. apply andb_prop in Hok as [Hkv Hrest].
  unfold paramOk in Hkv. simpl in Hkv. apply andb_prop in Hkv as [Hkey Hv].
  destruct rest as [|kv rest].
  - destruct v as [text|text]; simpl in Hv; simpl renderParams;
      unfold renderLiteral.
    + rewrite paramLoop_plain by assumption. now apply paramsAfter_value.
    + rewrite paramLoop_quoted by assumption. reflexivity.
  - rewrite renderParams_cons, paramLoop_app, paramLoop_app.
    destruct v as [text|text]; simpl in Hv; unfold renderLiteral.
    + rewrite paramLoop_plain by assumption.
      rewrite paramLoop_comma_after_value by assumption.
      rewrite IH by (discriminate || assumption || reflexivity).
      reflexivity.
    + rewrite paramLoop_quoted by assumption.
      rewrite paramLoop_comma_after_string.
      rewrite IH by (discriminate || assumption || reflexivity).
      reflexivity.
Qed.

Lemma quoted_trimmed text :
  quoted text <> EmptyString /\ TrimLeft (quoted text) = quoted text /\
  TrimRight (quoted text) = quoted text.
Proof.
  unfold quoted. rewrite append_cons. repeat split; [discriminate|].
  rewrite <- append_cons. apply TrimRight_app; [discriminate | reflexivity].
Qed.

Lemma renderLiteral_trimmed v :
  literalOk v = true ->
  renderLiteral v <> EmptyString /\
  TrimRight (renderLiteral v) = renderLiteral v.
Proof.
  destruct v as [text|text]; simpl; intros H.
  - apply plainWord_inv in H as (Hne & _ & Htrim).
    split; [exact Hne | now apply TrimSpace_fixed_right].
  - destruct (quoted_trimmed text) as (H1 & _ & H3). now split.
Qed.

Lemma renderParams_trimmed kvs :
  kvs <> [] -> forallb paramOk kvs = true ->
  renderParams kvs <> EmptyString /\
  TrimSpace (renderParams kvs) = renderParams kvs.
Proof.
  intros Hne Hok.
  assert (Hright : renderParams kvs <> EmptyString /\
                   TrimRight (renderParams kvs) = renderParams kvs).
  { induction kvs as [|[key v] rest IH]; [congruence|].
    simpl in Hok. apply andb_prop in Hok as [Hkv Hrest].
    unfold paramOk in Hkv. simpl in Hkv. apply andb_prop in Hkv as [Hkey Hv].
    destruct (renderLiteral_trimmed v Hv) as [Hv1 Hv2].
    destruct rest as [|kv rest].
    - simpl renderParams. rewrite <- append_assoc. split.
      + destruct (key +:+ "="); [now rewrite append_empty_l | discriminate].
      + now apply TrimRight_app.
    - rewrite renderParams_cons.
      destruct IH as [IH1 IH2]; [discriminate | exact Hrest |].
      rewrite <- append_assoc. split.
      + destruct ((key +:+ "=" +:+ renderLiteral v) +:+ ", ");
          [now rewrite append_empty_l | discriminate].
      + now apply TrimRight_app. }
  destruct Hright as [H1 H2]. split; [exact H1|].
  unfold TrimSpace.
  replace (TrimLeft (renderParams kvs)) with (renderParams kvs); [exact H2|].
  destruct kvs as [|[key v] rest]; [congruence|].
  simpl in Hok. apply andb_prop in Hok as [Hkv _].
  unfold paramOk in Hkv. simpl in Hkv. apply andb_prop in Hkv as [Hkey _].
  apply plainWord_inv in Hkey as (Hk & _ & Htrim).
  apply TrimSpace_fixed_left in Htrim.
  destruct rest as [|kv rest]; [simpl renderParams | rewrite renderParams_cons];
    rewrite ?append_assoc; symmetry; now apply TrimLeft_app.
Qed.

(** A rendered parameter list is read back. *)
Lemma extractParams_rendered (name : string)
    (kvs : list (string * literal)) :
  allChars (fun c => negb (Ascii.eqb c "(")) name = true ->
  forallb paramOk kvs = true ->
  extractParams (name +:+ "(" +:+ renderParams kvs +:+ ")") = paramsOf kvs.
Proof.
  intros Hname Hok. rewrite extractParams_call by exact Hname.
  unfold paramsOfContent, paramsOf.
  destruct kvs as [|kv rest]; [reflexivity|].
  destruct (renderParams_trimmed (kv :: rest)) as [Hne Htrim];
    [discriminate | exact Hok |].
  rewrite Htrim.
  assert (Hfull : isEmpty (renderParams (kv :: rest)) = false)
    by (destruct (renderParams (kv :: rest)); [congruence | reflexivity]).
  rewrite Hfull.
  apply (paramLoop_render (kv :: rest) ∅ EmptyString);
    [discriminate | exact Hok | reflexivity].
Qed.


(** ** Blanks around a program *)

Lemma TrimRight_keyword kw : forall r,
  allChars (fun c => negb (isSpace c)) kw = true ->
  TrimRight (kw +:+ r) = kw +:+ TrimRight r.
Proof.
  induction kw as [|c kw IH]; intros r H; [reflexivity|].
  simpl in H. apply andb_prop in H as [Hc H]. apply negb_true_iff in Hc.
  rewrite !append_cons. simpl. rewrite (IH r H), Hc.
  destruct (kw +:+ TrimRight r); reflexivity.
Qed.

Lemma TrimSpace_keyword c kw r :
  allChars (fun c => negb (isSpace c)) (String c kw) = true ->
  TrimSpace (String c kw +:+ r) = String c kw +:+ TrimRight r.
Proof.
  intros H. unfold TrimSpace.
  rewrite TrimLeft_app; [now apply TrimRight_keyword | discriminate |].
  simpl in *. apply andb_prop in H as [Hc _]. apply negb_true_iff in Hc.
  now rewrite Hc.
Qed.

(** X5: blanks in front of and behind a program do not change what
    [ParseDSL] returns. *)
Theorem ParseDSL_padding (p : Parser float64) (pad1 dslCode pad2 : string) :
  allChars isSpace pad1 = true -> allChars isSpace pad2 = true ->
  ParseDSL p (pad1 +:+ dslCode +:+ pad2) = ParseDSL p dslCode.
Proof.
  intros H1 H2. unfold ParseDSL. now rewrite TrimSpace_padding.
Qed.

(** X6: a program made of blanks only is refused with the error [empty
    DSL code]; the parser is left as it was. *)
Theorem ParseDSL_blank (p : Parser float64) (dslCode : string) :
  allChars isSpace dslCode = true ->
  ParseDSL p dslCode = Returns [] (Some "empty DSL code") p.
Proof.
  intros H. unfold ParseDSL, TrimSpace. now rewrite TrimLeft_blank.
Qed.

(** ** What the loop of [ParseDSL] keeps *)

Lemma emit_next r prefix actions cur p actions' cur' p' :
  emit r prefix actions cur p = Next actions' cur' p' ->
  (exists a, r = Ok a /\ actions' = (actions ++ [a])%list) /\ cur' = cur /\ p' = p.
Proof.
  destruct r as [a|msg]; simpl; [|discriminate].
  intros [= <- <- <-]. eauto.
Qed.

Lemma createTrack_next p actions part actions' cur' p' :
  createTrack p actions part = Next actions' cur' p' ->
  exists a, parseTrackCall p part = TrackReturns a cur' None p' /\
            actions' = (actions ++ [a])%list.
Proof.
  unfold createTrack.
  destruct (parseTrackCall p part) as [a i [msg|] q|r]; try discriminate.
  intros [= <- <- <-]. eauto.
Qed.

(** One segment adds at most one record, at the end. *)
Lemma parsePart_appends p actions cur part actions' cur' p' :
  parsePart p actions cur part = Next actions' cur' p' ->
  actions' = actions \/ exists a, actions' = (actions ++ [a])%list.
Proof.
  unfold parsePart, parseTrackPart. intros H.
  repeat case_match; simplify_eq; auto;
    try (apply emit_next in H as [[a [_ ->]] _]; eauto);
    try (apply createTrack_next in H as [a [_ ->]]; eauto).
Qed.

Lemma parseParts_count parts : forall p actions cur out p',
  parseParts p actions cur parts = Returns out None p' ->
  (1 <= length out)%nat /\
  (length actions <= length out <= length actions + length parts)%nat.
Proof.
  induction parts as [|part rest IH]; intros p actions cur out p' H.
  - simpl in H. destruct actions as [|a actions]; [discriminate|].
    injection H as <- _. simpl. lia.
  - simpl in H.
    destruct (parsePart p actions cur part) as [a c q|o] eqn:E.
    + apply IH in H as [H1 H2]. split; [exact H1|].
      apply parsePart_appends in E as [->|[x ->]];
        rewrite ?length_app in *; simpl in *; lia.
    + apply parsePart_stop in E. subst o. destruct E as [_ E]. congruence.
Qed.

(** X7: a successful parse returns at least one record and at most one
    record per part of the split. *)
Theorem ParseDSL_record_count (p p' : Parser float64) (dslCode : string)
    (actions : list ActionRecord) :
  ParseDSL p dslCode = Returns actions None p' ->
  (1 <= length actions <= length (splitMethodChains (TrimSpace dslCode)))%nat.
Proof.
  unfold ParseDSL. destruct (isEmpty (TrimSpace dslCode)); [discriminate|].
  intros H. apply parseParts_count in H. simpl in H. lia.
Qed.

Lemma parsePart_chained p actions cur part actions' cur' p' :
  HasPrefix (TrimSpace part) "track(" = false ->
  parsePart p actions cur part = Next actions' cur' p' ->
  cur' = cur /\ p' = p.
Proof.
  unfold parsePart. intros Hpre H. rewrite Hpre in H.
  repeat case_match; simplify_eq; auto;
    apply emit_next in H as (_ & -> & ->); auto.
Qed.

(** X8: a segment that is not a track call changes neither the current
    track nor the parser object: the counter moves on track creation only,
    and a clip built on the selected track of the snapshot does not make
    that track the current one. *)
Theorem chained_call_keeps_context (p p' : Parser float64)
    (actions actions' : list ActionRecord) (cur cur' : Z) (part : string) :
  HasPrefix (TrimSpace part) "track(" = false ->
  parsePart p actions cur part = Next actions' cur' p' ->
  cur' = cur /\ p' = p.
Proof. apply parsePart_chained. Qed.

Lemma parsePart_stop_state p actions cur part o :
  parsePart p actions cur part = Stop o -> state (parserAfter o) = state p.
Proof.
  unfold parsePart, parseTrackPart, createTrack, emit. intros H.
  repeat case_match; simplify_eq; try reflexivity;
    simpl; eapply parseTrackCall_state; eassumption.
Qed.

Lemma parseParts_state parts : forall p actions cur,
  state (parserAfter (parseParts p actions cur parts)) = state p.
Proof.
  induction parts as [|part rest IH]; intros p actions cur; simpl.
  - destruct (Nat.eqb (length actions) 0); reflexivity.
  - destruct (parsePart p actions cur part) as [a c q|o] eqn:E.
    + rewrite IH. eapply parsePart_state; eassumption.
    + eapply parsePart_stop_state; eassumption.
Qed.

(** X9: [ParseDSL] never replaces or changes the snapshot it was given,
    whether it succeeds, fails or panics. *)
Theorem ParseDSL_keeps_snapshot (p : Parser float64) (dslCode : string) :
  state (parserAfter (ParseDSL p dslCode)) = state p.
Proof.
  unfold ParseDSL. destruct (isEmpty (TrimSpace dslCode)); [reflexivity|].
  apply parseParts_state.
Qed.

Lemma parseParts_unrecognised parts : forall p actions cur,
  Forall (fun part => recognised (TrimSpace part) = false) parts ->
  parseParts p actions cur parts = parseParts p actions cur [].
Proof.
  induction parts as [|part rest IH]; intros p actions cur H; [reflexivity|].
  inversion H as [|? ? Hpart Hrest]; subst.
  change (parseParts p actions cur (part :: rest))
    with (match parsePart p actions cur part with
          | Next a c q => parseParts q a c rest
          | Stop o => o
          end).
  rewrite (parsePart_unrecognised p actions cur part Hpart). now apply IH.
Qed.

(** X10: a program that is not blank and in which no part starts with a
    recognised keyword fails with the error [no actions found in DSL
    code]. *)
Theorem ParseDSL_nothing_recognised (p : Parser float64) (dslCode : string) :
  isEmpty (TrimSpace dslCode) = false ->
  Forall (fun part => recognised (TrimSpace part) = false)
         (splitMethodChains (TrimSpace dslCode)) ->
  ParseDSL p dslCode = Returns [] (Some "no actions found in DSL code") p.
Proof.
  intros Hfull Hparts. unfold ParseDSL. rewrite Hfull.
  now rewrite parseParts_unrecognised.
Qed.

(** ** The records [ParseDSL] returns *)

Ltac lookups :=
  repeat first
    [ rewrite lookup_insert_eq
    | rewrite lookup_insert_ne by discriminate
    | rewrite lookup_singleton_eq
    | rewrite lookup_singleton_ne by discriminate ].

Ltac record_on_track t :=
  split;
  [ eexists; split; [lookups; reflexivity | simpl; tauto]
  | right; split;
    [ lookups; discriminate
    | exists t; split; [lookups; reflexivity | lia] ] ].

Lemma parseTrackCall_wellFormed p call a i err p' :
  parseTrackCall p call = TrackReturns a i err p' -> wellFormedRecord a.
Proof.
  unfold parseTrackCall. intros H.
  repeat case_match; simplify_eq;
    (split;
     [ eexists; split; [lookups; reflexivity | simpl; tauto]
     | left; split; [lookups; reflexivity | eauto] ]).
Qed.

Lemma parseClipCall_wellFormed p call t a :
  parseClipCall p call t = Ok a -> wellFormedRecord a.
Proof.
  unfold parseClipCall, clipAtTime.
  set (idx := if t <? 0 then getSelectedTrackIndex p else t).
  destruct (Z.ltb_spec idx 0); [discriminate|]. intros Hcall.
  repeat case_match; simplify_eq; record_on_track idx.
Qed.

Lemma parseMidiCall_wellFormed p call t a :
  parseMidiCall p call t = Ok a -> wellFormedRecord a.
Proof.
  unfold parseMidiCall. destruct (Z.ltb_spec t 0); [discriminate|].
  intros [= <-]. record_on_track t.
Qed.

Lemma parseFXCall_wellFormed p call t a :
  parseFXCall p call t = Ok a -> wellFormedRecord a.
Proof.
  unfold parseFXCall. destruct (Z.ltb_spec t 0); [discriminate|].
  intros Hcall. repeat case_match; simplify_eq; record_on_track t.
Qed.

Lemma parseVolumeCall_wellFormed p call t a :
  parseVolumeCall p call t = Ok a -> wellFormedRecord a.
Proof.
  unfold parseVolumeCall. destruct (Z.ltb_spec t 0); [discriminate|].
  intros Hcall. repeat case_match; simplify_eq; record_on_track t.
Qed.

Lemma parsePanCall_wellFormed p call t a :
  parsePanCall p call t = Ok a -> wellFormedRecord a.
Proof.
  unfold parsePanCall. destruct (Z.ltb_spec t 0); [discriminate|].
  intros Hcall. repeat case_match; simplify_eq; record_on_track t.
Qed.

Lemma parseMuteCall_wellFormed p call t a :
  parseMuteCall p call t = Ok a -> wellFormedRecord a.
Proof.
  unfold parseMuteCall. destruct (Z.ltb_spec t 0); [discriminate|].
  intros Hcall. repeat case_match; simplify_eq; record_on_track t.
Qed.

Lemma parseSoloCall_wellFormed p call t a :
  parseSoloCall p call t = Ok a -> wellFormedRecord a.
Proof.
  unfold parseSoloCall. destruct (Z.ltb_spec t 0); [discriminate|].
  intros Hcall. repeat case_match; simplify_eq; record_on_track t.
Qed.

Lemma parseNameCall_wellFormed p call t a :
  parseNameCall p call t = Ok a -> wellFormedRecord a.
Proof.
  unfold parseNameCall. destruct (Z.ltb_spec t 0); [discriminate|].
  intros Hcall. repeat case_match; simplify_eq; record_on_track t.
Qed.

Lemma Forall_snoc_wellFormed (actions : list ActionRecord) a :
  Forall wellFormedRecord actions -> wellFormedRecord a ->
  Forall wellFormedRecord (actions ++ [a]).
Proof.
  intros H Ha. apply Forall_app. split; [exact H|]. now constructor.
Qed.

Lemma parsePart_wellFormed p actions cur part actions' cur' p' :
  Forall wellFormedRecord actions ->
  parsePart p actions cur part = Next actions' cur' p' ->
  Forall wellFormedRecord actions'.
Proof.
  intros Hwf. unfold parsePart, parseTrackPart. intros H.
  repeat case_match; simplify_eq; try exact Hwf;
    try (apply createTrack_next in H as [a [Ha ->]];
         apply Forall_snoc_wellFormed; [exact Hwf|];
         eapply parseTrackCall_wellFormed; eassumption);
    apply emit_next in H as [[a [Ha ->]] _];
    apply Forall_snoc_wellFormed; try exact Hwf;
    eauto using parseClipCall_wellFormed, parseMidiCall_wellFormed,
      parseFXCall_wellFormed, parseVolumeCall_wellFormed,
      parsePanCall_wellFormed, parseMuteCall_wellFormed,
      parseSoloCall_wellFormed, parseNameCall_wellFormed.
Qed.

Lemma parseParts_wellFormed parts : forall p actions cur out err p',
  Forall wellFormedRecord actions ->
  parseParts p actions cur parts = Returns out err p' ->
  Forall wellFormedRecord out.
Proof.
  induction parts as [|part rest IH]; intros p actions cur out err p' Hwf H.
  - simpl in H. destruct (Nat.eqb (length actions) 0); simplify_eq;
      [constructor | exact Hwf].
  - simpl in H.
    destruct (parsePart p actions cur part) as [a c q|o] eqn:E.
    + eapply IH; [|exact H]. eapply parsePart_wellFormed; eassumption.
    + apply parsePart_stop in E. subst o. destruct E as [-> _]. constructor.
Qed.

(** X11: every record [ParseDSL] returns names one of the eleven known
    actions; it is a [create_track] record with an integer [index], or it
    carries an integer [track] that is not negative. *)
Theorem ParseDSL_records_wellFormed (p p' : Parser float64)
    (dslCode : string) (actions : list ActionRecord) (err : option string) :
  ParseDSL p dslCode = Returns actions err p' ->
  Forall wellFormedRecord actions.
Proof.
  unfold ParseDSL. destruct (isEmpty (TrimSpace dslCode)).
  - intros [= <- _ _]. constructor.
  - apply parseParts_wellFormed. constructor.
Qed.

(** ** Calls end to end: scanner, dispatch and builder *)

Lemma HasPrefix_app (pre r : string) : HasPrefix (pre +:+ r) pre = true.
Proof.
  unfold HasPrefix. induction pre as [|c pre IH].
  - destruct r; reflexivity.
  - rewrite append_cons. simpl. destruct (ascii_dec c c); [exact IH | congruence].
Qed.

Lemma TrimSpace_call (pre body : string) :
  pre <> EmptyString -> TrimLeft pre = pre ->
  TrimSpace (pre +:+ body +:+ ")") = pre +:+ body +:+ ")".
Proof.
  intros Hne Hpre. unfold TrimSpace. rewrite TrimLeft_app by assumption.
  rewrite <- append_assoc. apply TrimRight_app; [discriminate | reflexivity].
Qed.

Lemma call_indices (name content : string) :
  allChars (fun c => negb (Ascii.eqb c "(")) name = true ->
  Index (name +:+ "(" +:+ content +:+ ")") "(" =
    Z.of_nat (String.length name) /\
  LastIndex (name +:+ "(" +:+ content +:+ ")") ")" =
    Z.of_nat (String.length name) + (1 + Z.of_nat (String.length content)) /\
  slice (name +:+ "(" +:+ content +:+ ")")
        (Z.of_nat (String.length name) + 1)
        (Z.of_nat (String.length name) +
         (1 + Z.of_nat (String.length content))) = content.
Proof.
  intros Hname. repeat split.
  - exact (Index_app_absent "(" name (content +:+ ")") Hname).
  - rewrite <- (append_assoc name "(" (content +:+ ")")).
    rewrite <- (append_assoc (name +:+ "(") content ")").
    rewrite LastIndex_app. simpl (LastIndex ")" ")").
    change (0 <=? 0) with true. cbv iota.
    rewrite !length_append. simpl String.length. lia.
  - rewrite slice_app_skip by lia.
    unfold slice. replace (Z.to_nat 1) with 1%nat by reflexivity.
    replace (Z.to_nat (1 + Z.of_nat (String.length content) - 1))
      with (String.length content) by lia.
    change (substring 1 (String.length content) ("(" +:+ content +:+ ")"))
      with (substring 0 (String.length content) (content +:+ ")")).
    apply substring_prefix.
Qed.

Lemma digit_not_special c d :
  digit c = Some d -> paramSpecial c = false /\ isSpace c = false.
Proof.
  intros H. split.
  - unfold paramSpecial.
    destruct (Ascii.eqb_spec c backslash) as [->|_];
      [vm_compute in H; discriminate H|].
    destruct (Ascii.eqb_spec c dquote) as [->|_];
      [vm_compute in H; discriminate H|].
    destruct (Ascii.eqb_spec c "=") as [->|_];
      [vm_compute in H; discriminate H|].
    destruct (Ascii.eqb_spec c ",") as [->|_];
      [vm_compute in H; discriminate H|].
    reflexivity.
  - unfold digit in H. unfold isSpace.
    destruct ((48 <=? code c) && (code c <=? 57)) eqn:E; [|discriminate].
    apply andb_prop in E as [E1 E2]. apply Z.leb_le in E1, E2.
    repeat (apply orb_false_intro); apply Z.eqb_neq; lia.
Qed.

Lemma digits_chars s : forall acc n,
  digits acc s = Some n ->
  allChars (fun c => negb (paramSpecial c) && negb (isSpace c)) s = true.
Proof.
  induction s as [|c s IH]; intros acc n H; [reflexivity|].
  simpl in H. destruct (digit c) as [d|] eqn:E; [|discriminate].
  destruct (digit_not_special c d E) as [H1 H2].
  simpl. rewrite H1, H2. simpl. eapply IH; eassumption.
Qed.

Lemma Atoi_chars s n :
  Atoi s = Some n ->
  s <> EmptyString /\
  allChars (fun c => negb (paramSpecial c) && negb (isSpace c)) s = true.
Proof.
  unfold Atoi. destruct s as [|c r]; [discriminate|].
  destruct (Ascii.eqb_spec c "-") as [->|Hm];
    [|destruct (Ascii.eqb_spec c "+") as [->|Hp]];
    cbv zeta; simpl orb; cbv iota;
    (destruct (isEmpty _); [discriminate|]);
    (destruct (digits 0 _) as [k|] eqn:E; [|discriminate]);
    intros _; (split; [discriminate|]).
  - simpl. eapply digits_chars; eassumption.
  - simpl. eapply digits_chars; eassumption.
  - eapply digits_chars; eassumption.
Qed.

Lemma TrimSpace_no_blank s :
  allChars (fun c => negb (isSpace c)) s = true -> TrimSpace s = s.
Proof.
  intros H. unfold TrimSpace.
  replace (TrimLeft s) with s.
  - rewrite <- (append_empty_r s) at 1.
    rewrite TrimRight_keyword by exact H. apply append_empty_r.
  - destruct s as [|c s]; [reflexivity|]. simpl in *.
    apply andb_prop in H as [Hc _]. apply negb_true_iff in Hc.
    now rewrite Hc.
Qed.

(** A text that [Atoi] accepts is a plain word. *)
Lemma Atoi_plainWord s n : Atoi s = Some n -> plainWord s = true.
Proof.
  intros H. apply Atoi_chars in H as [Hne Hchars].
  unfold plainWord.
  assert (H1 : allChars (fun c => negb (paramSpecial c)) s = true).
  { revert Hchars. apply allChars_weaken. intros c Hc.
    now apply andb_prop in Hc as [Hc _]. }
  assert (H2 : allChars (fun c => negb (isSpace c)) s = true).
  { revert Hchars. apply allChars_weaken. intros c Hc.
    now apply andb_prop in Hc as [_ Hc]. }
  rewrite H1, (TrimSpace_no_blank s H2), String.eqb_refl.
  destruct s; [congruence | reflexivity].
Qed.

Lemma extractParams_bare_word (name w : string) :
  allChars (fun c => negb (Ascii.eqb c "(")) name = true ->
  plainWord w = true ->
  extractParams (name +:+ "(" +:+ w +:+ ")") = ∅.
Proof.
  intros Hname Hw. apply plainWord_inv in Hw as (Hne & Hchars & Htrim).
  rewrite extractParams_call by exact Hname.
  unfold paramsOfContent. rewrite Htrim.
  destruct w as [|c w]; [congruence|]. simpl isEmpty. cbv iota.
  unfold paramInit. rewrite paramLoop_key by exact Hchars. reflexivity.
Qed.

Lemma track_reference_forms_aux (p : Parser float64)
    (actions : list ActionRecord) (cur n : Z) (number : string) :
  Atoi number = Some n ->
  parsePart p actions cur ("track(" +:+ number +:+ ")") =
    Next actions (int_sub n 1) p /\
  parsePart p actions cur ("track(id=" +:+ number +:+ ")") =
    Next actions (int_sub n 1) p.
Proof.
  intros Hn. pose proof (Atoi_plainWord _ _ Hn) as Hword.
  pose proof (plainWord_inv _ Hword) as (_ & _ & Htrim).
  split.
  - unfold parsePart.
    rewrite (TrimSpace_call "track(" number) by (discriminate || reflexivity).
    change ("track(" +:+ number +:+ ")")
      with ("track" +:+ "(" +:+ number +:+ ")").
    replace (isEmpty ("track" +:+ "(" +:+ number +:+ ")")) with false
      by reflexivity.
    replace (HasPrefix ("track" +:+ "(" +:+ number +:+ ")") "track(")
      with true by (symmetry; apply (HasPrefix_app "track(")).
    unfold parseTrackPart.
    rewrite (extractParams_bare_word "track" number eq_refl Hword).
    rewrite !lookup_empty. change (size (∅ : gmap string string)) with 0%nat.
    destruct (call_indices "track" number eq_refl) as (EI & EL & ES).
    rewrite EI, EL, ES, Htrim, Hn.
    destruct (Z.leb_spec 0 (Z.of_nat (String.length "track"))); [|lia].
    destruct (Z.ltb_spec (Z.of_nat (String.length "track"))
                (Z.of_nat (String.length "track") +
                 (1 + Z.of_nat (String.length number))));
      [reflexivity | lia].
  - unfold parsePart.
    rewrite (TrimSpace_call "track(id=" number)
      by (discriminate || reflexivity).
    change ("track(id=" +:+ number +:+ ")")
      with ("track" +:+ "(" +:+ renderParams [("id", Plain number)] +:+ ")").
    replace (isEmpty
               ("track" +:+ "(" +:+ renderParams [("id", Plain number)] +:+ ")"))
      with false by reflexivity.
    replace (HasPrefix
               ("track" +:+ "(" +:+ renderParams [("id", Plain number)] +:+ ")")
               "track(")
      with true by (symmetry; apply (HasPrefix_app "track(")).
    unfold parseTrackPart.
    rewrite (extractParams_rendered "track" [("id", Plain number)] eq_refl)
      by (simpl; unfold paramOk; simpl; now rewrite Hword).
    unfold paramsOf. simpl fold_left.
    rewrite lookup_insert_eq, Hn. reflexivity.
Qed.

(** X12: [track(N)] and [track(id=N)] say the same thing: for every text
    [N] that [Atoi] reads as [n], the current track becomes [n - 1], no
    record is added, and the snapshot is not asked whether such a track
    exists. *)
Theorem track_reference_forms (p : Parser float64)
    (actions : list ActionRecord) (cur n : Z) (number : string) :
  Atoi number = Some n ->
  parsePart p actions cur ("track(" +:+ number +:+ ")") =
    Next actions (int_sub n 1) p /\
  parsePart p actions cur ("track(id=" +:+ number +:+ ")") =
    Next actions (int_sub n 1) p.
Proof. apply track_reference_forms_aux. Qed.

Lemma parsePart_dispatch_mute p actions cur part :
  HasPrefix (TrimSpace part) ".setMute(" = true ->
  parsePart p actions cur part =
  emit (parseMuteCall p (TrimSpace part) cur) "failed to parse mute call"
       actions cur p.
Proof.
  intros Hpre. unfold parsePart. set (part' := TrimSpace part) in *.
  destruct (HasPrefix_inv _ _ Hpre) as [r Hr]. clearbody part'. subst part'.
  rewrite Hpre. reflexivity.
Qed.

Lemma parsePart_dispatch_solo p actions cur part :
  HasPrefix (TrimSpace part) ".setSolo(" = true ->
  parsePart p actions cur part =
  emit (parseSoloCall p (TrimSpace part) cur) "failed to parse solo call"
       actions cur p.
Proof.
  intros Hpre. unfold parsePart. set (part' := TrimSpace part) in *.
  destruct (HasPrefix_inv _ _ Hpre) as [r Hr]. clearbody part'. subst part'.
  rewrite Hpre. reflexivity.
Qed.

Lemma parsePart_dispatch_fx p actions cur part :
  HasPrefix (TrimSpace part) ".addFX(" = true \/
  HasPrefix (TrimSpace part) ".addInstrument(" = true ->
  parsePart p actions cur part =
  emit (parseFXCall p (TrimSpace part) cur) "failed to parse FX call"
       actions cur p.
Proof.
  intros Hpre. unfold parsePart. set (part' := TrimSpace part) in *.
  destruct Hpre as [Hpre|Hpre];
    destruct (HasPrefix_inv _ _ Hpre) as [r Hr]; clearbody part'; subst part';
    rewrite Hpre; reflexivity.
Qed.

(** X13: [setMute] and [setSolo] take the text [true], in lower case and
    nothing else, for true: on a current track, [.setMute(mute=v)] adds a
    record whose [mute] is true exactly when [v] is [true]; every other
    word, [True] and [1] included, gives false and no error. *)
Theorem mute_and_solo_read_true_only (p : Parser float64)
    (actions : list ActionRecord) (cur : Z) (v : string) :
  0 <= cur -> plainWord v = true ->
  parsePart p actions cur (".setMute(mute=" +:+ v +:+ ")") =
    Next (actions ++
          [ {[ "action" := VString "set_track_mute"; "track" := VInt cur;
               "mute" := VBool (String.eqb v "true") ]} ]) cur p /\
  parsePart p actions cur (".setSolo(solo=" +:+ v +:+ ")") =
    Next (actions ++
          [ {[ "action" := VString "set_track_solo"; "track" := VInt cur;
               "solo" := VBool (String.eqb v "true") ]} ]) cur p.
Proof.
  intros Hcur Hv.
  assert (E : (cur <? 0) = false) by (apply Z.ltb_ge; exact Hcur).
  split.
  - assert (Ht : TrimSpace (".setMute(mute=" +:+ v +:+ ")") =
                 ".setMute" +:+ "(" +:+ renderParams [("mute", Plain v)] +:+ ")")
      by (apply (TrimSpace_call ".setMute(mute=" v);
          [discriminate | reflexivity]).
    rewrite parsePart_dispatch_mute
      by (rewrite Ht; apply (HasPrefix_app ".setMute(")).
    rewrite Ht. unfold parseMuteCall. rewrite E.
    rewrite (extractParams_rendered ".setMute" [("mute", Plain v)] eq_refl)
      by (simpl; unfold paramOk; simpl; now rewrite Hv).
    unfold paramsOf. simpl fold_left. rewrite lookup_insert_eq.
    unfold emit, BooleanTrue.
    destruct (String.eqb v "true"); reflexivity.
  - assert (Ht : TrimSpace (".setSolo(solo=" +:+ v +:+ ")") =
                 ".setSolo" +:+ "(" +:+ renderParams [("solo", Plain v)] +:+ ")")
      by (apply (TrimSpace_call ".setSolo(solo=" v);
          [discriminate | reflexivity]).
    rewrite parsePart_dispatch_solo
      by (rewrite Ht; apply (HasPrefix_app ".setSolo(")).
    rewrite Ht. unfold parseSoloCall. rewrite E.
    rewrite (extractParams_rendered ".setSolo" [("solo", Plain v)] eq_refl)
      by (simpl; unfold paramOk; simpl; now rewrite Hv).
    unfold paramsOf. simpl fold_left. rewrite lookup_insert_eq.
    unfold emit, BooleanTrue.
    destruct (String.eqb v "true"); reflexivity.
Qed.

Lemma parseFXCall_name p name r t :
  allChars (fun c => negb (isParen c)) name = true ->
  parseFXCall p (name +:+ String "(" r) t = parseFXCall p (String "(" r) t.
Proof.
  intros Hname. unfold parseFXCall. now rewrite extractParams_name.
Qed.

(** X14: the keywords [.addFX] and [.addInstrument] are interchangeable;
    which record is built depends on the parameters alone.  With [fxname]
    the record is [add_track_fx], whether [instrument] is given too or
    not; with [instrument] alone it is [add_instrument], the instrument
    going into the field [fxname]. *)
Theorem addFX_and_addInstrument (p : Parser float64)
    (actions : list ActionRecord) (cur : Z) (r : string) :
  parsePart p actions cur (".addFX(" +:+ r) =
  parsePart p actions cur (".addInstrument(" +:+ r) /\
  (forall call t fxname,
     0 <= t -> extractParams call !! "fxname" = Some fxname ->
     parseFXCall p call t =
     Ok {[ "action" := VString "add_track_fx"; "track" := VInt t;
           "fxname" := VString fxname ]}) /\
  (forall call t instrument,
     0 <= t -> extractParams call !! "fxname" = None ->
     extractParams call !! "instrument" = Some instrument ->
     parseFXCall p call t =
     Ok {[ "action" := VString "add_instrument"; "track" := VInt t;
           "fxname" := VString instrument ]}).
Proof.
  split; [|split].
  - rewrite !parsePart_dispatch_fx.
    + rewrite (TrimSpace_keyword "." "addFX(" r eq_refl).
      rewrite (TrimSpace_keyword "." "addInstrument(" r eq_refl).
      f_equal.
      change (".addFX(" +:+ TrimRight r)
        with (".addFX" +:+ String "(" (TrimRight r)).
      change (".addInstrument(" +:+ TrimRight r)
        with (".addInstrument" +:+ String "(" (TrimRight r)).
      now rewrite !parseFXCall_name by reflexivity.
    + right. rewrite (TrimSpace_keyword "." "addInstrument(" r eq_refl).
      apply (HasPrefix_app ".addInstrument(").
    + left. rewrite (TrimSpace_keyword "." "addFX(" r eq_refl).
      apply (HasPrefix_app ".addFX(").
  - intros call t fxname Ht Hfx. unfold parseFXCall.
    assert (E : (t <? 0) = false) by (apply Z.ltb_ge; exact Ht).
    rewrite E, Hfx. vm_compute. reflexivity.
  - intros call t instrument Ht Hfx Hins. unfold parseFXCall.
    assert (E : (t <? 0) = false) by (apply Z.ltb_ge; exact Ht).
    rewrite E, Hfx, Hins. vm_compute. reflexivity.
Qed.


(** X16: [newClip] reads its parameters in a fixed order of precedence.
    Given [bar], it looks at [bar] and [length_bars] only; given [start]
    and no [bar], it looks at [start] and [length] only; [position] is read
    when both are absent, and is then treated exactly as [start] is. *)
Theorem newClip_precedence (p : Parser float64) (t : Z)
    (call1 call2 : string) :
  (forall bar,
     extractParams call1 !! "bar" = Some bar ->
     extractParams call2 !! "bar" = Some bar ->
     extractParams call1 !! "length_bars" =
     extractParams call2 !! "length_bars" ->
     parseClipCall p call1 t = parseClipCall p call2 t) /\
  (forall start,
     extractParams call1 !! "bar" = None ->
     extractParams call2 !! "bar" = None ->
     extractParams call1 !! "start" = Some start ->
     extractParams call2 !! "start" = Some start ->
     extractParams call1 !! "length" = extractParams call2 !! "length" ->
     parseClipCall p call1 t = parseClipCall p call2 t) /\
  (forall position,
     extractParams call1 !! "bar" = None ->
     extractParams call2 !! "bar" = None ->
     extractParams call1 !! "start" = Some position ->
     extractParams call2 !! "start" = None ->
     extractParams call2 !! "position" = Some position ->
     extractParams call1 !! "length" = extractParams call2 !! "length" ->
     parseClipCall p call1 t = parseClipCall p call2 t).
Proof.
  unfold parseClipCall, clipAtTime. repeat split.
  - intros bar H1 H2 H3. now rewrite H1, H2, H3.
  - intros start B1 B2 H1 H2 H3. now rewrite B1, B2, H1, H2, H3.
  - intros position B1 B2 H1 H2 H3 H4. now rewrite B1, B2, H1, H2, H3, H4.
Qed.

(** X17: a reference to track 0 or to a negative track is accepted, but
    leaves no current track: the builders that need one fail on the next
    segment with their no-track-context error. *)
Theorem reference_below_one (p : Parser float64)
    (actions : list ActionRecord) (cur n : Z) (number part : string)
    (rest : list string) (kw msg : string) :
  Atoi number = Some n -> min_int < n <= 0 ->
  In (kw, msg) contextErrors -> HasPrefix (TrimSpace part) kw = true ->
  parseParts p actions cur (("track(" +:+ number +:+ ")") :: part :: rest) =
  Returns [] (Some msg) p.
Proof.
  intros Hn Hrange Hin Hpre.
  destruct (track_reference_forms_aux p actions cur n number Hn) as [E _].
  change (parseParts p actions cur
            (("track(" +:+ number +:+ ")") :: part :: rest))
    with (match parsePart p actions cur ("track(" +:+ number +:+ ")") with
          | Next a c q => parseParts q a c (part :: rest)
          | Stop o => o
          end).
  rewrite E.
  change (parseParts p actions (int_sub n 1) (part :: rest))
    with (match parsePart p actions (int_sub n 1) part with
          | Next a c q => parseParts q a c rest
          | Stop o => o
          end).
  rewrite (parsePart_context_error p actions (int_sub n 1) part kw msg Hin Hpre);
    [reflexivity|].
  unfold int_sub. rewrite wrap_in_range; unfold min_int, max_int in *; lia.
Qed.

(** ** [trackExists] and [resolveTrackIndex] *)

Lemma trackExists_true p index :
  trackExists p index = true <->
  0 <= index < Z.of_nat (length (snapshotTracks p)).
Proof.
  unfold trackExists, snapshotTracks.
  destruct (state p) as [st|]; [|simpl; split; [discriminate | lia]].
  destruct (Z.ltb_spec index 0).
  - split; [discriminate | lia].
  - repeat case_match; simpl;
      try (split; [discriminate | lia]).
    rewrite Z.ltb_lt. lia.
Qed.


Lemma firstNamed_cons trackRef i track rest :
  firstNamed trackRef i (track :: rest) =
  if named trackRef track then i else firstNamed trackRef (i + 1) rest.
Proof.
  destruct track as [| | | | | |m|]; simpl; try reflexivity.
  destruct (m !! "name") as [[| | | |name| | |]|]; reflexivity.
Qed.

Lemma firstNamed_none trackRef tracks : forall i,
  Forall (fun track => named trackRef track = false) tracks ->
  firstNamed trackRef i tracks = -1.
Proof.
  induction tracks as [|track rest IH]; intros i H; [reflexivity|].
  inversion H as [|? ? Ht Hrest]; subst.
  rewrite firstNamed_cons, Ht. now apply IH.
Qed.

Lemma firstNamed_first trackRef tracks : forall i n,
  firstWith (named trackRef) tracks n ->
  firstNamed trackRef i tracks = i + Z.of_nat n.
Proof.
  induction tracks as [|track rest IH]; intros i n [[t [Hn Ht]] Hlt].
  - destruct n; discriminate.
  - rewrite firstNamed_cons. destruct n as [|n].
    + simpl in Hn. injection Hn as ->. rewrite Ht. lia.
    + rewrite (Hlt 0%nat track); [|lia|reflexivity].
      rewrite (IH (i + 1) n); [lia|]. split.
      * exists t. split; [exact Hn | exact Ht].
      * intros j t' Hj Hj'. apply (Hlt (S j) t'); [lia | exact Hj'].
Qed.

Lemma firstNamed_range trackRef tracks : forall i,
  firstNamed trackRef i tracks = -1 \/
  i <= firstNamed trackRef i tracks < i + Z.of_nat (length tracks).
Proof.
  induction tracks as [|track rest IH]; intros i; [left; reflexivity|].
  rewrite firstNamed_cons. destruct (named trackRef track).
  - right. simpl length. lia.
  - destruct (IH (i + 1)) as [E|E]; [left; exact E | right].
    simpl length. lia.
Qed.

Lemma resolveTrackIndex_by_name p trackRef :
  (forall n, Atoi trackRef = Some n -> trackExists p (int_sub n 1) = false) ->
  resolveTrackIndex p trackRef = firstNamed trackRef 0 (namedTracks p).
Proof.
  intros Hno. unfold resolveTrackIndex, namedTracks.
  destruct (state p) as [st|]; [|reflexivity].
  destruct (Atoi trackRef) as [n|]; [rewrite (Hno n eq_refl)|];
    cbv beta iota zeta; repeat case_match; reflexivity.
Qed.

Lemma namedTracks_wrapped p :
  snapshotTracks p <> [] -> namedTracks p = snapshotTracks p.
Proof.
  unfold namedTracks, snapshotTracks.
  repeat case_match; simplify_eq; congruence.
Qed.

(** X19: a number is read as the 1-based position of a track: when
    [trackRef] parses as [n] and the track list under [state.tracks] has
    at least [n] entries, [resolveTrackIndex] returns [n - 1], also when
    some track bears that number as its name. *)
Theorem resolveTrackIndex_number (p : Parser float64) (trackRef : string)
    (n : Z) :
  Atoi trackRef = Some n ->
  1 <= n <= Z.of_nat (length (snapshotTracks p)) ->
  resolveTrackIndex p trackRef = n - 1.
Proof.
  intros Hn Hrange.
  assert (Hsub : int_sub n 1 = n - 1).
  { unfold int_sub. apply wrap_in_range.
    pose proof (Atoi_in_range _ _ Hn). unfold min_int, max_int in *. lia. }
  assert (Hex : trackExists p (n - 1) = true)
    by (apply trackExists_true; lia).
  unfold resolveTrackIndex. rewrite Hn, Hsub, Hex.
  destruct (state p) as [st|] eqn:E; [reflexivity|].
  unfold snapshotTracks in Hrange. rewrite E in Hrange. simpl in Hrange. lia.
Qed.

(** X20: a reference that is not the number of an existing track is
    looked up as a name: [resolveTrackIndex] returns the position of the
    first track whose [name] is the reference, and [-1] when no track has
    that name. *)
Theorem resolveTrackIndex_name (p : Parser float64) (trackRef : string) :
  (forall n, Atoi trackRef = Some n -> trackExists p (int_sub n 1) = false) ->
  (Forall (fun track => named trackRef track = false) (namedTracks p) ->
   resolveTrackIndex p trackRef = -1) /\
  (forall k, firstWith (named trackRef) (namedTracks p) k ->
   resolveTrackIndex p trackRef = Z.of_nat k).
Proof.
  intros Hno. rewrite (resolveTrackIndex_by_name p trackRef Hno). split.
  - apply firstNamed_none.
  - intros k Hk. now rewrite (firstNamed_first trackRef _ 0 k Hk).
Qed.

(** X21: [resolveTrackIndex] returns [-1] or a position inside the track
    list it looked at; it never returns an index past the end. *)
Theorem resolveTrackIndex_range (p : Parser float64) (trackRef : string) :
  resolveTrackIndex p trackRef = -1 \/
  0 <= resolveTrackIndex p trackRef < Z.of_nat (length (namedTracks p)).
Proof.
  destruct (Atoi trackRef) as [n|] eqn:Hn.
  - destruct (trackExists p (int_sub n 1)) eqn:Hex.
    + right. apply trackExists_true in Hex.
      assert (Hne : snapshotTracks p <> [])
        by (destruct (snapshotTracks p); [simpl in Hex; lia | discriminate]).
      rewrite (namedTracks_wrapped p Hne).
      unfold resolveTrackIndex. rewrite Hn.
      destruct (state p) as [st|] eqn:E.
      * apply trackExists_true in Hex as Hex'.
        unfold resolveTrackIndex in *. rewrite Hex'. exact Hex.
      * unfold snapshotTracks in Hne. rewrite E in Hne. congruence.
    + rewrite resolveTrackIndex_by_name
        by (intros m Hm; rewrite Hn in Hm; injection Hm as <-; exact Hex).
      destruct (firstNamed_range trackRef (namedTracks p) 0); [left|right];
        lia.
  - rewrite resolveTrackIndex_by_name by (intros m Hm; congruence).
    destruct (firstNamed_range trackRef (namedTracks p) 0); [left|right]; lia.
Qed.

(** ** Calls that are not closed *)

Lemma allChars_TrimRight ok s :
  allChars ok s = true -> allChars ok (TrimRight s) = true.
Proof.
  induction s as [|c s IH]; intros H; [reflexivity|].
  simpl in H. apply andb_prop in H as [Hc H]. simpl.
  destruct (TrimRight s) as [|x r] eqn:E.
  - destruct (isSpace c); [reflexivity|]. simpl. now rewrite Hc.
  - change (allChars ok (String c (String x r)))
      with (ok c && allChars ok (String x r)).
    now rewrite Hc, (IH H).
Qed.

Lemma extractParams_unclosed call :
  allChars (fun c => negb (Ascii.eqb c ")")) call = true ->
  extractParams call = ∅.
Proof.
  intros H. unfold extractParams. rewrite (LastIndex_absent ")" call H).
  change (-1 <? 0) with true. now rewrite orb_true_r.
Qed.

(** X22: a track call whose closing parenthesis is missing is not
    refused: its arguments are ignored, and it creates a track with the
    next automatic index and no other field. *)
Theorem unclosed_track_call (p : Parser float64)
    (actions : list ActionRecord) (cur : Z) (r : string) :
  allChars (fun c => negb (Ascii.eqb c ")")) r = true ->
  parsePart p actions cur ("track(" +:+ r) =
  Next (actions ++
        [ {[ "action" := VString "create_track";
             "index" := VInt (trackCounter p) ]} ])
       (trackCounter p)
       (mkParser (int_add (trackCounter p) 1) (state p)).
Proof.
  intros Hr. unfold parsePart.
  rewrite (TrimSpace_keyword "t" "rack(" r eq_refl).
  set (part := "track(" +:+ TrimRight r).
  assert (Hparams : extractParams part = ∅).
  { apply extractParams_unclosed. unfold part.
    rewrite allChars_app. now rewrite allChars_TrimRight. }
  assert (Hlast : LastIndex part ")" = -1).
  { apply LastIndex_absent. unfold part.
    rewrite allChars_app. now rewrite allChars_TrimRight. }
  replace (isEmpty part) with false by reflexivity.
  replace (HasPrefix part "track(") with true
    by (symmetry; apply (HasPrefix_app "track(")).
  unfold parseTrackPart. rewrite Hparams, !lookup_empty, Hlast.
  change (size (∅ : gmap string string)) with 0%nat.
  replace (Index part "(") with 5 by reflexivity.
  change ((0 <=? 5) && (5 <? -1)) with false. cbv iota. simpl Nat.eqb.
  cbv iota. unfold createTrack, parseTrackCall.
  rewrite Hparams, !lookup_empty. cbv beta iota zeta.
  rewrite lookup_insert_eq. reflexivity.
Qed.

End Coverage.

(** * The parser on concrete programs

    From here on [ParseFloat] is the decimal reading of [DecimalFloat]. *)

Section Runs.

#[local] Existing Instance DecimalFloat.decimal.

(** With a selected track in the snapshot, a leading [setVolume] call still
    fails for want of a track: the snapshot is not consulted. *)
Lemma setVolume_ignores_selected_track :
  getSelectedTrackIndex (SetState NewParser secondSelected) = 1 /\
  ParseDSL (SetState NewParser secondSelected) ".setVolume(volume_db=-3.0)" =
  Returns []
    (Some "failed to parse volume call: no track context for volume call")
    (SetState NewParser secondSelected).
Proof. split; vm_compute; reflexivity. Qed.

(** With a selected track in the snapshot, a program that starts with
    [.newClip(bar=3)] parses: the clip goes to the selected track. *)
Lemma leading_newClip_uses_selected_track :
  ParseDSL (SetState NewParser secondSelected) ".newClip(bar=3)" =
  Returns [ {[ "action" := VString "create_clip_at_bar"; "track" := VInt 1;
               "bar" := VInt 3; "length_bars" := VInt 4 ]} ]
          None (SetState NewParser secondSelected).
Proof. vm_compute. reflexivity. Qed.

(** A parser that is used twice goes on counting: independent parsers are
    what makes two runs agree. *)
Example reused_parser_goes_on_counting :
  ParseDSL NewParser "track()" =
    Returns [ {[ "action" := VString "create_track"; "index" := VInt 0 ]} ]
            None (mkParser 1 None) /\
  ParseDSL (mkParser 1 None) "track()" =
    Returns [ {[ "action" := VString "create_track"; "index" := VInt 1 ]} ]
            None (mkParser 2 None).
Proof. split; vm_compute; reflexivity. Qed.

(** Indices in one program: automatic, explicit, automatic again. *)
Example indices_in_a_program :
  ParseDSL NewParser "track() track(index=7) track()" =
    Returns [ {[ "action" := VString "create_track"; "index" := VInt 0 ]};
              {[ "action" := VString "create_track"; "index" := VInt 7 ]};
              {[ "action" := VString "create_track"; "index" := VInt 8 ]} ]
            None (mkParser 9 None).
Proof. vm_compute. reflexivity. Qed.

Lemma error_returns_no_records_witness :
  ParseDSL NewParser "track().newClip(length_bars=4)" =
    Returns []
      (Some ("failed to parse clip call: " +:+
             "clip call must specify bar or start/position"))
      (mkParser 1 None) /\
  ([] : list ActionRecord) = [].
Proof.
  split; [vm_compute; reflexivity|].
  apply (error_returns_no_records NewParser "track().newClip(length_bars=4)"
           []
           ("failed to parse clip call: " +:+
            "clip call must specify bar or start/position")
           (mkParser 1 None)).
  vm_compute. reflexivity.
Defined.

Lemma unrecognised_segment_skipped_witness :
  recognised (TrimSpace ".foo(1)") = false /\
  parsePart NewParser [] 0 ".foo(1)" = Next [] 0 NewParser /\
  parseParts NewParser [] (-1)
    (["track()"] ++ ".foo(1)" :: [".setMute(mute=true)"]) =
  parseParts NewParser [] (-1) (["track()"] ++ [".setMute(mute=true)"]).
Proof.
  assert (H : recognised (TrimSpace ".foo(1)") = false)
    by (vm_compute; reflexivity).
  split; [exact H|].
  destruct (unrecognised_segment_skipped ".foo(1)" H) as [Hstep Hloop].
  split; [apply Hstep | apply Hloop].
Defined.


Lemma secondSelected_first :
  firstFlagged (snapshotTracks (SetState NewParser secondSelected)) 1.
Proof.
  split.
  - eexists. split; vm_compute; reflexivity.
  - intros [|j] track Hj Htrack; [|lia].
    vm_compute in Htrack. injection Htrack as <-. vm_compute. reflexivity.
Defined.

Lemma NewParser_none : noneFlagged (snapshotTracks NewParser).
Proof. intros track []. Defined.

Lemma selected_track_reference_witness :
  isSelectedReference " track(selected=true)" = true /\
  parsePart (SetState NewParser secondSelected) [] (-1)
            " track(selected=true)" =
    Next [] 1 (SetState NewParser secondSelected) /\
  parsePart NewParser [] (-1) " track(selected=true)" =
    Stop (Returns [] (Some "no selected track found in state") NewParser) /\
  failed (ParseDSL NewParser
            "track().setMute(mute=true) track(selected=true).newClip(bar=1)").
Proof.
  assert (H : isSelectedReference " track(selected=true)" = true)
    by (vm_compute; reflexivity).
  split; [exact H|]. split; [|split].
  - apply (proj1 (selected_track_reference
                    (SetState NewParser secondSelected) _ H) 1%nat
                 secondSelected_first).
  - apply (proj1 (proj2 (selected_track_reference NewParser _ H)
                        NewParser_none)).
  - apply (proj2 (proj2 (selected_track_reference NewParser _ H)
                        NewParser_none)).
    vm_compute. right. right. left. reflexivity.
Defined.

Lemma fallback_to_selected_track_witness :
  -1 < 0 /\
  parsePart (SetState NewParser secondSelected) [] (-1) ".newClip(bar=3)" =
    emit (parseClipCall (SetState NewParser secondSelected)
            (TrimSpace ".newClip(bar=3)") 1)
         "failed to parse clip call" [] (-1)
         (SetState NewParser secondSelected) /\
  parsePart NewParser [] (-1) ".newClip(bar=3)" =
    Stop (Returns [] (Some clipContextError) NewParser) /\
  parsePart (SetState NewParser secondSelected) [] (-1)
            ".setVolume(volume_db=-3.0)" =
    Stop (Returns []
            (Some "failed to parse volume call: no track context for volume call")
            (SetState NewParser secondSelected)).
Proof.
  assert (Hneg : -1 < 0) by lia.
  assert (Hclip : HasPrefix (TrimSpace ".newClip(bar=3)") ".newClip(" = true)
    by (vm_compute; reflexivity).
  split; [exact Hneg|]. split; [|split].
  - destruct (fallback_to_selected_track
                (SetState NewParser secondSelected) [] (-1)
                ".newClip(bar=3)" Hneg) as [H _].
    destruct (H Hclip) as [_ Hsel].
    exact (proj1 (Hsel 1%nat secondSelected_first)).
  - destruct (fallback_to_selected_track NewParser [] (-1)
                ".newClip(bar=3)" Hneg) as [H _].
    destruct (H Hclip) as [Hnone _].
    exact (Hnone NewParser_none).
  - destruct (fallback_to_selected_track
                (SetState NewParser secondSelected) [] (-1)
                ".setVolume(volume_db=-3.0)" Hneg) as [_ H].
    apply (H ".setVolume(").
    + vm_compute. do 3 right. left. reflexivity.
    + vm_compute. reflexivity.
Defined.

Lemma leading_call_without_track_witness :
  splitMethodChains (TrimSpace ".setVolume(volume_db=-3.0).setPan(pan=0.5)") =
    [".setVolume(volume_db=-3.0)"; ".setPan(pan=0.5)"] /\
  ParseDSL (SetState NewParser secondSelected)
           ".setVolume(volume_db=-3.0).setPan(pan=0.5)" =
    Returns []
      (Some "failed to parse volume call: no track context for volume call")
      (SetState NewParser secondSelected) /\
  splitMethodChains (TrimSpace ".newClip(bar=3)") = [".newClip(bar=3)"] /\
  ParseDSL NewParser ".newClip(bar=3)" =
    Returns [] (Some clipContextError) NewParser.
Proof.
  assert (H1 : splitMethodChains
                 (TrimSpace ".setVolume(volume_db=-3.0).setPan(pan=0.5)") =
               [".setVolume(volume_db=-3.0)"; ".setPan(pan=0.5)"])
    by (vm_compute; reflexivity).
  assert (H2 : splitMethodChains (TrimSpace ".newClip(bar=3)") =
               [".newClip(bar=3)"])
    by (vm_compute; reflexivity).
  split; [exact H1|]. split; [|split; [exact H2|]].
  - apply (proj1 (leading_call_without_track
                    (SetState NewParser secondSelected) _ _ _ H1)
                 ".setVolume(").
    + vm_compute. do 3 right. left. reflexivity.
    + vm_compute. reflexivity.
  - destruct (leading_call_without_track NewParser _ _ _ H2) as [_ H].
    apply H.
    + vm_compute. reflexivity.
    + exact NewParser_none.
Defined.


Lemma newClip_records_witness :
  0 <= 0 /\
  parseClipCall NewParser ".newClip(bar=3)" 0 =
    Ok {[ "action" := VString "create_clip_at_bar"; "track" := VInt 0;
          "bar" := VInt 3; "length_bars" := VInt 4 ]} /\
  ParseFloat "1.5" = Some (Qmake 3 2) /\
  ParseFloat "2.0" = Some (Qmake 2 1) /\
  parseClipCall NewParser ".newClip(start=1.5, length=2.0)" 0 =
    Ok {[ "action" := VString "create_clip"; "track" := VInt 0;
          "position" := VFloat (Qmake 3 2); "length" := VFloat (Qmake 2 1) ]} /\
  parseClipCall NewParser ".newClip(length_bars=4)" 0 =
    Err "clip call must specify bar or start/position".
Proof.
  assert (H0 : 0 <= 0) by lia.
  assert (H1 : ParseFloat "1.5" = Some (Qmake 3 2))
    by (vm_compute; reflexivity).
  assert (H2 : ParseFloat "2.0" = Some (Qmake 2 1))
    by (vm_compute; reflexivity).
  destruct (newClip_records NewParser 0 H0) as [Hbar [Hstart [_ Hnone]]].
  split; [exact H0|]. split; [exact Hbar|]. split; [exact H1|].
  split; [exact H2|]. split; [exact (Hstart _ _ H1 H2) | exact Hnone].
Defined.

End Runs.

(** * The further properties on concrete programs *)

Section CoverageRuns.

#[local] Existing Instance DecimalFloat.decimal.

Lemma splitMethodChains_call_witness :
  allChars (fun c => negb (splitSpecial c)) "track" = true /\
  forallb pieceOk [Bare "instrument="; InQuotes "Serum (Xfer), v.2"] = true /\
  splitMethodChains
    (renderCall "track" [Bare "instrument="; InQuotes "Serum (Xfer), v.2"]
     +:+ ".newClip(bar=3)") =
  [ renderCall "track" [Bare "instrument="; InQuotes "Serum (Xfer), v.2"];
    ".newClip(bar=3)" ].
Proof.
  assert (H1 : allChars (fun c => negb (splitSpecial c)) "track" = true)
    by reflexivity.
  assert (H2 : forallb pieceOk
                 [Bare "instrument="; InQuotes "Serum (Xfer), v.2"] = true)
    by reflexivity.
  split; [exact H1|]. split; [exact H2|].
  rewrite (splitMethodChains_call "track" _ ".newClip(bar=3)" H1 H2).
  reflexivity.
Defined.


Lemma ParseDSL_padding_witness :
  allChars isSpace "  " = true /\
  allChars isSpace (String (ascii_of_nat 10) EmptyString) = true /\
  ParseDSL NewParser
    ("  " +:+ "track()" +:+ String (ascii_of_nat 10) EmptyString) =
  ParseDSL NewParser "track()".
Proof.
  split; [reflexivity|]. split; [reflexivity|].
  apply (ParseDSL_padding NewParser "  " "track()"
           (String (ascii_of_nat 10) EmptyString)); reflexivity.
Defined.

Lemma ParseDSL_blank_witness :
  allChars isSpace "   " = true /\
  ParseDSL NewParser "   " = Returns [] (Some "empty DSL code") NewParser.
Proof.
  split; [reflexivity|]. apply (ParseDSL_blank NewParser "   "). reflexivity.
Defined.

Lemma ParseDSL_record_count_witness :
  ParseDSL NewParser "track().foo().newClip(bar=1)" =
    Returns
      [ {[ "action" := VString "create_track"; "index" := VInt 0 ]};
        {[ "action" := VString "create_clip_at_bar"; "track" := VInt 0;
           "bar" := VInt 1; "length_bars" := VInt 4 ]} ]
      None (mkParser 1 None) /\
  (1 <= 2 <=
   length (splitMethodChains (TrimSpace "track().foo().newClip(bar=1)")))%nat.
Proof.
  assert (H : ParseDSL NewParser "track().foo().newClip(bar=1)" =
              Returns
                [ {[ "action" := VString "create_track"; "index" := VInt 0 ]};
                  {[ "action" := VString "create_clip_at_bar";
                     "track" := VInt 0; "bar" := VInt 1;
                     "length_bars" := VInt 4 ]} ]
                None (mkParser 1 None))
    by (vm_compute; reflexivity).
  split; [exact H|].
  exact (ParseDSL_record_count NewParser (mkParser 1 None) _ _ H).
Defined.

Lemma chained_call_keeps_context_witness :
  HasPrefix (TrimSpace ".newClip(bar=3)") "track(" = false /\
  parsePart (SetState NewParser secondSelected) [] (-1) ".newClip(bar=3)" =
    Next [ {[ "action" := VString "create_clip_at_bar"; "track" := VInt 1;
              "bar" := VInt 3; "length_bars" := VInt 4 ]} ]
         (-1) (SetState NewParser secondSelected) /\
  -1 = -1 /\ SetState NewParser secondSelected =
             SetState NewParser secondSelected.
Proof.
  assert (H1 : HasPrefix (TrimSpace ".newClip(bar=3)") "track(" = false)
    by reflexivity.
  assert (H2 : parsePart (SetState NewParser secondSelected) [] (-1)
                 ".newClip(bar=3)" =
               Next [ {[ "action" := VString "create_clip_at_bar";
                         "track" := VInt 1; "bar" := VInt 3;
                         "length_bars" := VInt 4 ]} ]
                    (-1) (SetState NewParser secondSelected))
    by (vm_compute; reflexivity).
  split; [exact H1|]. split; [exact H2|].
  exact (chained_call_keeps_context _ _ _ _ _ _ _ H1 H2).
Defined.

Lemma ParseDSL_nothing_recognised_witness :
  isEmpty (TrimSpace "newClip(bar=1).Track()") = false /\
  Forall (fun part => recognised (TrimSpace part) = false)
         (splitMethodChains (TrimSpace "newClip(bar=1).Track()")) /\
  ParseDSL NewParser "newClip(bar=1).Track()" =
    Returns [] (Some "no actions found in DSL code") NewParser.
Proof.
  assert (H1 : isEmpty (TrimSpace "newClip(bar=1).Track()") = false)
    by reflexivity.
  assert (Hs : splitMethodChains (TrimSpace "newClip(bar=1).Track()") =
               ["newClip(bar=1)"; ".Track()"]) by (vm_compute; reflexivity).
  assert (H2 : Forall (fun part => recognised (TrimSpace part) = false)
                 (splitMethodChains (TrimSpace "newClip(bar=1).Track()")))
    by (rewrite Hs; repeat constructor).
  split; [exact H1|]. split; [exact H2|].
  exact (ParseDSL_nothing_recognised NewParser _ H1 H2).
Defined.

Lemma ParseDSL_records_wellFormed_witness :
  ParseDSL NewParser "track().setPan(pan=0.5)" =
    Returns
      [ {[ "action" := VString "create_track"; "index" := VInt 0 ]};
        {[ "action" := VString "set_track_pan"; "track" := VInt 0;
           "pan" := VFloat (Qmake 1 2) ]} ]
      None (mkParser 1 None) /\
  Forall wellFormedRecord
    [ {[ "action" := VString "create_track"; "index" := VInt 0 ]};
      {[ "action" := VString "set_track_pan"; "track" := VInt 0;
         "pan" := VFloat (Qmake 1 2) ]} ].
Proof.
  assert (H : ParseDSL NewParser "track().setPan(pan=0.5)" =
              Returns
                [ {[ "action" := VString "create_track"; "index" := VInt 0 ]};
                  {[ "action" := VString "set_track_pan"; "track" := VInt 0;
                     "pan" := VFloat (Qmake 1 2) ]} ]
                None (mkParser 1 None))
    by (vm_compute; reflexivity).
  split; [exact H|].
  exact (ParseDSL_records_wellFormed NewParser _ _ _ _ H).
Defined.

Lemma track_reference_forms_witness :
  Atoi "3" = Some 3 /\
  parsePart NewParser [] (-1) ("track(" +:+ "3" +:+ ")") =
    Next [] (int_sub 3 1) NewParser /\
  parsePart NewParser [] (-1) ("track(id=" +:+ "3" +:+ ")") =
    Next [] (int_sub 3 1) NewParser.
Proof.
  assert (H : Atoi "3" = Some 3) by reflexivity.
  split; [exact H|].
  exact (track_reference_forms NewParser [] (-1) 3 "3" H).
Defined.

Lemma mute_and_solo_read_true_only_witness :
  0 <= 0 /\ plainWord "True" = true /\
  parsePart NewParser [] 0 (".setMute(mute=" +:+ "True" +:+ ")") =
    Next ([] ++
          [ {[ "action" := VString "set_track_mute"; "track" := VInt 0;
               "mute" := VBool (String.eqb "True" "true") ]} ]) 0 NewParser /\
  String.eqb "True" "true" = false.
Proof.
  assert (H0 : 0 <= 0) by lia.
  assert (H1 : plainWord "True" = true) by reflexivity.
  split; [exact H0|]. split; [exact H1|]. split; [|reflexivity].
  exact (proj1 (mute_and_solo_read_true_only NewParser [] 0 "True" H0 H1)).
Defined.

Lemma addFX_and_addInstrument_witness :
  parsePart NewParser [] 0 (".addFX(" +:+ "instrument=Serum)") =
  parsePart NewParser [] 0 (".addInstrument(" +:+ "instrument=Serum)") /\
  0 <= 0 /\
  extractParams ".addFX(fxname=ReaEQ, instrument=Serum)" !! "fxname" =
    Some "ReaEQ" /\
  parseFXCall NewParser ".addFX(fxname=ReaEQ, instrument=Serum)" 0 =
    Ok {[ "action" := VString "add_track_fx"; "track" := VInt 0;
          "fxname" := VString "ReaEQ" ]} /\
  extractParams ".addFX(instrument=Serum)" !! "fxname" = None /\
  extractParams ".addFX(instrument=Serum)" !! "instrument" = Some "Serum" /\
  parseFXCall NewParser ".addFX(instrument=Serum)" 0 =
    Ok {[ "action" := VString "add_instrument"; "track" := VInt 0;
          "fxname" := VString "Serum" ]}.
Proof.
  assert (H0 : 0 <= 0) by lia.
  assert (H1 : extractParams ".addFX(fxname=ReaEQ, instrument=Serum)"
               !! "fxname" = Some "ReaEQ") by (vm_compute; reflexivity).
  assert (H2 : extractParams ".addFX(instrument=Serum)" !! "fxname" = None)
    by (vm_compute; reflexivity).
  assert (H3 : extractParams ".addFX(instrument=Serum)" !! "instrument" =
               Some "Serum") by (vm_compute; reflexivity).
  destruct (addFX_and_addInstrument NewParser [] 0 "instrument=Serum)")
    as (Ha & Hb & Hc).
  split; [exact Ha|]. split; [exact H0|]. split; [exact H1|].
  split; [exact (Hb _ 0 _ H0 H1)|]. split; [exact H2|]. split; [exact H3|].
  exact (Hc _ 0 _ H0 H2 H3).
Defined.


Lemma newClip_precedence_witness :
  extractParams ".newClip(bar=3, start=1.5, length=2.0)" !! "bar" = Some "3" /\
  extractParams ".newClip(bar=3)" !! "bar" = Some "3" /\
  extractParams ".newClip(bar=3, start=1.5, length=2.0)" !! "length_bars" =
  extractParams ".newClip(bar=3)" !! "length_bars" /\
  parseClipCall NewParser ".newClip(bar=3, start=1.5, length=2.0)" 0 =
  parseClipCall NewParser ".newClip(bar=3)" 0.
Proof.
  assert (H1 : extractParams ".newClip(bar=3, start=1.5, length=2.0)"
               !! "bar" = Some "3") by (vm_compute; reflexivity).
  assert (H2 : extractParams ".newClip(bar=3)" !! "bar" = Some "3")
    by (vm_compute; reflexivity).
  assert (H3 : extractParams ".newClip(bar=3, start=1.5, length=2.0)"
               !! "length_bars" =
               extractParams ".newClip(bar=3)" !! "length_bars")
    by (vm_compute; reflexivity).
  split; [exact H1|]. split; [exact H2|]. split; [exact H3|].
  exact (proj1 (newClip_precedence NewParser 0
                  ".newClip(bar=3, start=1.5, length=2.0)" ".newClip(bar=3)")
               "3" H1 H2 H3).
Defined.

Lemma reference_below_one_witness :
  Atoi "0" = Some 0 /\ min_int < 0 <= 0 /\
  In (".setVolume(",
      "failed to parse volume call: no track context for volume call")
     contextErrors /\
  HasPrefix (TrimSpace ".setVolume(volume_db=-3.0)") ".setVolume(" = true /\
  parseParts NewParser [] (-1)
    [("track(" +:+ "0" +:+ ")"); ".setVolume(volume_db=-3.0)"] =
  Returns []
    (Some "failed to parse volume call: no track context for volume call")
    NewParser.
Proof.
  assert (H1 : Atoi "0" = Some 0) by reflexivity.
  assert (H2 : min_int < 0 <= 0) by (unfold min_int; lia).
  assert (H3 : In (".setVolume(",
                   "failed to parse volume call: no track context for volume call")
                  contextErrors)
    by (vm_compute; do 3 right; left; reflexivity).
  assert (H4 : HasPrefix (TrimSpace ".setVolume(volume_db=-3.0)")
                 ".setVolume(" = true) by reflexivity.
  split; [exact H1|]. split; [exact H2|]. split; [exact H3|].
  split; [exact H4|].
  exact (reference_below_one NewParser [] (-1) 0 "0"
           ".setVolume(volume_db=-3.0)" [] _ _ H1 H2 H3 H4).
Defined.

Lemma resolveTrackIndex_number_witness :
  Atoi "2" = Some 2 /\
  1 <= 2 <=
    Z.of_nat (length (snapshotTracks (SetState NewParser secondSelected))) /\
  resolveTrackIndex (SetState NewParser secondSelected) "2" = 2 - 1.
Proof.
  assert (H1 : Atoi "2" = Some 2) by reflexivity.
  assert (H2 : 1 <= 2 <=
               Z.of_nat (length (snapshotTracks
                                   (SetState NewParser secondSelected))))
    by (vm_compute; split; discriminate).
  split; [exact H1|]. split; [exact H2|].
  exact (resolveTrackIndex_number _ "2" 2 H1 H2).
Defined.

Lemma Bass_is_second :
  firstWith (named "Bass")
    (namedTracks (SetState NewParser secondSelected)) 1.
Proof.
  split.
  - eexists. split; vm_compute; reflexivity.
  - intros [|j] track Hj Htrack; [|lia].
    vm_compute in Htrack. injection Htrack as <-. vm_compute. reflexivity.
Defined.

Lemma resolveTrackIndex_name_witness :
  (forall n, Atoi "Bass" = Some n ->
     trackExists (SetState NewParser secondSelected) (int_sub n 1) = false) /\
  resolveTrackIndex (SetState NewParser secondSelected) "Bass" = 1.
Proof.
  assert (H : forall n, Atoi "Bass" = Some n ->
                trackExists (SetState NewParser secondSelected)
                            (int_sub n 1) = false)
    by (intros n Hn; vm_compute in Hn; discriminate Hn).
  split; [exact H|].
  exact (proj2 (resolveTrackIndex_name _ "Bass" H) 1%nat Bass_is_second).
Defined.

Lemma unclosed_track_call_witness :
  allChars (fun c => negb (Ascii.eqb c ")")) "instrument=Serum" = true /\
  parsePart NewParser [] (-1) ("track(" +:+ "instrument=Serum") =
  Next ([] ++
        [ {[ "action" := VString "create_track";
             "index" := VInt (trackCounter NewParser) ]} ])
       (trackCounter NewParser)
       (mkParser (int_add (trackCounter NewParser) 1) (state NewParser)).
Proof.
  split; [reflexivity|].
  apply (unclosed_track_call NewParser [] (-1) "instrument=Serum").
  reflexivity.
Defined.

End CoverageRuns.
